(** * opensearch-hlg: the query builder and the request signer

    A shallow embedding of [lib/cloudserach.js] (the [CloudSearch] query
    builder) and of the transport client ([CloudClient], [callRequest],
    [_signAliyun], [_paramsFilter], [_percentEncode]), with the properties
    the specification states about them.

    Conventions.
    - A JavaScript string is a [string]: the sequence of the bytes of its
      UTF-8 form.  [Array.prototype.sort] compares by UTF-16 code units
      ([JS.compare]), which is the byte-wise comparison on ASCII text.
    - A JavaScript number is modelled where it is an integer that a double
      holds exactly and prints in full (a safe integer, of absolute value
      below 2^53: [JNum]) or [NaN]; [-0] is identified with [0] (both are
      falsy and both are [=== 0]).
    - A plain JavaScript object is the list of its own enumerable properties
      in the order [for ... in] and [Object.keys] visit them; each key occurs
      once.
    - A parameter documented as a string is a [string]; the caller leaving
      it out is the empty string, which is falsy like [undefined].
    - The packages [small2], [utility] and [extend] are dependencies of the
      repository and not part of it; what the code calls from them is a
      parameter of the definitions below.  [Small2] and [Utility] hold what
      these parameters stand for. *)

From Stdlib Require Import ZArith NArith List Bool Ascii String.
From Stdlib Require Import Sorted Permutation Lia DecimalString DecimalZ.
Import ListNotations.

Local Open Scope list_scope.
Local Open Scope string_scope.

(** ** JavaScript values and plain objects *)

Module JS.

#[warnings="-register-all"]
Inductive value : Type :=
| JUndefined
| JNull
| JBool (b : bool)
| JNum (z : Z)
| JNaN
| JStr (s : string)
| JArr (l : list value).

(** [!!v] *)
Definition truthy (v : value) : bool :=
  match v with
  | JUndefined | JNull | JNaN => false
  | JBool b => b
  | JNum z => negb (z =? 0)%Z
  | JStr s => negb (s =? "")
  | JArr _ => true
  end.

(** [v === 0] *)
Definition is_zero (v : value) : bool :=
  match v with
  | JNum z => (z =? 0)%Z
  | _ => false
  end.

(** [v === 1] *)
Definition is_one (v : value) : bool :=
  match v with
  | JNum z => (z =? 1)%Z
  | _ => false
  end.

Definition Z_to_string (z : Z) : string :=
  NilZero.string_of_int (Z.to_int z).

(** [String(v)], and with it [Array.prototype.join]: [null] and
    [undefined] elements of an array are rendered as the empty string.  A
    safe integer is rendered with all its decimal digits. *)
Fixpoint to_string (v : value) : string :=
  match v with
  | JUndefined => "undefined"
  | JNull => "null"
  | JBool true => "true"
  | JBool false => "false"
  | JNum z => Z_to_string z
  | JNaN => "NaN"
  | JStr s => s
  | JArr l =>
      String.concat ","
        (map (fun e => match e with
                       | JUndefined | JNull => ""
                       | _ => to_string e
                       end) l)
  end.

(** [arr.join(sep)] on an array of strings. *)
Definition join (sep : string) (l : list string) : string :=
  String.concat sep l.

(** How [join] renders one element of an array. *)
Definition elem_string (e : value) : string :=
  match e with
  | JUndefined | JNull => ""
  | _ => to_string e
  end.

(** [v.join(sep)] for a value [v]: only an array has a [join]. *)
Definition array_join (sep : string) (v : value) : option string :=
  match v with
  | JArr l => Some (String.concat sep (map elem_string l))
  | _ => None
  end.

(** [a || b] on strings. *)
Definition str_or (a b : string) : string :=
  if a =? "" then b else a.

(** [v + 0] *)
Definition plus_zero (v : value) : value :=
  match v with
  | JUndefined | JNaN => JNaN
  | JNull => JNum 0
  | JBool true => JNum 1
  | JBool false => JNum 0
  | JNum z => JNum z
  | JStr s => JStr (s ++ "0")
  | JArr _ => JStr (to_string v ++ "0")
  end.

(** *** Plain objects

    The own properties of an ordinary object are visited array indices
    first, in ascending numeric order, then the other string keys in the
    order of their creation (ECMAScript, OrdinaryOwnPropertyKeys). *)

Definition obj (V : Type) : Type := list (string * V).

Definition digit_value (c : ascii) : option N :=
  let n := N_of_ascii c in
  if ((48 <=? n) && (n <=? 57))%N then Some (n - 48)%N else None.

Fixpoint digits_value (acc : N) (s : string) : option N :=
  match s with
  | EmptyString => Some acc
  | String c s' =>
      match digit_value c with
      | Some d => digits_value (10 * acc + d)%N s'
      | None => None
      end
  end.

(** An array index is a canonical numeric string (no sign, no leading
    zero) whose value is at most 2^32 - 2. *)
Definition array_index (k : string) : option N :=
  match k with
  | EmptyString => None
  | String c rest =>
      if ((c =? "0")%char && negb (rest =? ""))%bool then None
      else match digits_value 0 k with
           | Some n => if (n <? 4294967295)%N then Some n else None
           | None => None
           end
  end.

Section Objects.
Context {V : Type}.

(** [Object.keys(o)], the order of [for (k in o)] *)
Definition keys (o : obj V) : list string := map fst o.

(** [o[k]] on own properties *)
Fixpoint get (o : obj V) (k : string) : option V :=
  match o with
  | [] => None
  | (k', v) :: o' => if k' =? k then Some v else get o' k
  end.

Definition has (o : obj V) (k : string) : bool :=
  match get o k with Some _ => true | None => false end.

Fixpoint replace (k : string) (v : V) (o : obj V) : obj V :=
  match o with
  | [] => []
  | (k', v') :: o' =>
      if k' =? k then (k', v) :: o' else (k', v') :: replace k v o'
  end.

Fixpoint insert_index (n : N) (k : string) (v : V) (o : obj V) : obj V :=
  match o with
  | [] => [(k, v)]
  | (k', v') :: o' =>
      match array_index k' with
      | Some n' =>
          if (n' <? n)%N then (k', v') :: insert_index n k v o'
          else (k, v) :: o
      | None => (k, v) :: o
      end
  end.

(** [o[k] = v] for an ordinary object [o].  An existing property keeps its
    place; a new array index goes among the indices; any other new key
    goes last.  Assigning to [__proto__] creates no own property (and does
    nothing at all when [v] is a primitive value). *)
Definition set (k : string) (v : V) (o : obj V) : obj V :=
  if k =? "__proto__" then o
  else if has o k then replace k v o
  else match array_index k with
       | Some n => insert_index n k v o
       | None => (o ++ [(k, v)])%list
       end.

(** [delete o[k]] *)
Fixpoint delete (k : string) (o : obj V) : obj V :=
  match o with
  | [] => []
  | (k', v') :: o' =>
      if k' =? k then delete k o' else (k', v') :: delete k o'
  end.
End Objects.

(** The properties every ordinary object inherits from [Object.prototype]:
    reading one of them on an object that has no own property of that name
    yields a function (or, for [__proto__], the prototype object). *)
Definition prototype_keys : list string :=
  [ "constructor"; "__defineGetter__"; "__defineSetter__"; "hasOwnProperty";
    "__lookupGetter__"; "__lookupSetter__"; "isPrototypeOf";
    "propertyIsEnumerable"; "toString"; "valueOf"; "__proto__";
    "toLocaleString" ].

Definition inherited (k : string) : bool :=
  existsb (String.eqb k) prototype_keys.

(** What a call can end in: a return value and the state it leaves, or a
    thrown [TypeError]. *)
Inductive completion (A : Type) : Type :=
| Normal (a : A)
| ThrowTypeError (msg : string).
Arguments Normal {A} a.
Arguments ThrowTypeError {A} msg.

Definition bind {A B : Type} (c : completion A) (f : A -> completion B)
  : completion B :=
  match c with
  | Normal a => f a
  | ThrowTypeError m => ThrowTypeError m
  end.

(** [s.replace(/c/g, r)] for a one-character pattern *)
Fixpoint replace_all (c : ascii) (r : string) (s : string) : string :=
  match s with
  | EmptyString => EmptyString
  | String x s' =>
      if (x =? c)%char then r ++ replace_all c r s'
      else String x (replace_all c r s')
  end.

(** *** The order of [Array.prototype.sort]

    Without a comparison function [sort] orders strings by their UTF-16
    code units.  A code point above [U+FFFF] (four bytes of UTF-8) is a
    pair of surrogates, both below [U+E000]: there the order differs from
    the order of the bytes. *)

(** The payload of a UTF-8 continuation byte [10xxxxxx]. *)
Definition continuation (c : ascii) : option N :=
  let n := N_of_ascii c in
  if ((128 <=? n) && (n <? 192))%N then Some (n - 128)%N else None.

(** The UTF-16 code units of a string given by its UTF-8 bytes.  (A byte
    that starts no well-formed sequence, which the UTF-8 form of a
    JavaScript string never holds, stands for itself.) *)
Fixpoint code_units (s : string) : list N :=
  match s with
  | EmptyString => []
  | String b1 r1 =>
      let n1 := N_of_ascii b1 in
      let alone := n1 :: code_units r1 in
      if (n1 <? 192)%N then alone
      else if (n1 <? 224)%N then
        match r1 with
        | String b2 r2 =>
            match continuation b2 with
            | Some c2 => ((n1 - 192) * 64 + c2)%N :: code_units r2
            | None => alone
            end
        | _ => alone
        end
      else if (n1 <? 240)%N then
        match r1 with
        | String b2 (String b3 r3) =>
            match continuation b2, continuation b3 with
            | Some c2, Some c3 =>
                ((n1 - 224) * 4096 + c2 * 64 + c3)%N :: code_units r3
            | _, _ => alone
            end
        | _ => alone
        end
      else
        match r1 with
        | String b2 (String b3 (String b4 r4)) =>
            match continuation b2, continuation b3, continuation b4 with
            | Some c2, Some c3, Some c4 =>
                let point :=
                  ((n1 - 240) * 262144 + c2 * 4096 + c3 * 64 + c4)%N in
                let v := (point - 65536)%N in
                (55296 + v / 1024)%N :: (56320 + v mod 1024)%N
                  :: code_units r4
            | _, _, _ => alone
            end
        | _ => alone
        end
  end.

Fixpoint units_compare (a b : list N) : comparison :=
  match a, b with
  | [], [] => Eq
  | [], _ :: _ => Lt
  | _ :: _, [] => Gt
  | x :: a', y :: b' =>
      match (x ?= y)%N with
      | Eq => units_compare a' b'
      | c => c
      end
  end.

(** The comparison of two strings by code units.  (Two distinct strings
    of equal code units, which can only be ill-formed, are told apart by
    their bytes, so that the comparison is an order on every [string].) *)
Definition compare (x y : string) : comparison :=
  match units_compare (code_units x) (code_units y) with
  | Eq => String.compare x y
  | c => c
  end.

Definition leb (x y : string) : bool :=
  match compare x y with
  | Gt => false
  | _ => true
  end.

(** [Array.prototype.sort()] on strings: insertion into an ordered list. *)
Fixpoint insert_sorted (x : string) (l : list string) : list string :=
  match l with
  | [] => [x]
  | y :: l' => if leb x y then x :: l else y :: insert_sorted x l'
  end.

Definition sort (l : list string) : list string :=
  fold_right insert_sorted [] l.

(** The order [sort] arranges its argument in. *)
Definition le (x y : string) : Prop := leb x y = true.

(** Text of ASCII characters only: there the code units are the bytes. *)
Fixpoint ascii_text (s : string) : bool :=
  match s with
  | EmptyString => true
  | String c s' => (N_of_ascii c <? 128)%N && ascii_text s'
  end.

(** [String.prototype.toUpperCase] on ASCII text. *)
Definition upper_ascii (c : ascii) : ascii :=
  let n := N_of_ascii c in
  if ((97 <=? n) && (n <=? 122))%N then ascii_of_N (n - 32) else c.

Fixpoint toUpperCase (s : string) : string :=
  match s with
  | EmptyString => EmptyString
  | String c s' => String (upper_ascii c) (toUpperCase s')
  end.

End JS.

Notation "x <- c ;; k" := (JS.bind c (fun x => k))
  (at level 61, c at next level, right associativity).

(** ** What the code uses of its dependencies *)

Module Small2.
Import JS.

(** [s2.parseString] is called on objects and on strings. *)
Inductive source : Type :=
| OfObject (o : obj value)
| OfString (s : string).

(** [s2.parseString(code, encode, sep, eq)]; the separators are optional. *)
Definition parseString_t : Type :=
  source -> bool -> option string -> option string -> string.

(** [s2.goneEmpty(v)] *)
Definition goneEmpty_t : Type := value -> value.

Definition hex_digit (n : N) : ascii :=
  if (n <? 10)%N then ascii_of_N (48 + n) else ascii_of_N (55 + n).

Definition percent_byte (c : ascii) : string :=
  let n := N_of_ascii c in
  String "%" (String (hex_digit (n / 16)) (String (hex_digit (n mod 16)) "")).

Definition in_range (lo hi : N) (c : ascii) : bool :=
  let n := N_of_ascii c in ((lo <=? n) && (n <=? hi))%N.

(** The characters [encodeURIComponent] leaves as they are:
    [A-Z a-z 0-9 - _ . ! ~ * ' ( )]. *)
Definition unreserved (c : ascii) : bool :=
  in_range 65 90 c || in_range 97 122 c || in_range 48 57 c
  || existsb (Ascii.eqb c) (list_ascii_of_string "-_.!~*'()").

(** Modelled from the spec: [encodeURIComponent], the standard
    percent-encoding the source comment of [_percentEncode] names; on the
    bytes of a string, every byte outside the unreserved set becomes [%XX]
    with upper-case hexadecimal digits. *)
Fixpoint encodeURIComponent (s : string) : string :=
  match s with
  | EmptyString => EmptyString
  | String c s' =>
      if unreserved c then String c (encodeURIComponent s')
      else percent_byte c ++ encodeURIComponent s'
  end.

Definition or_default (o : option string) (d : string) : string :=
  match o with Some s => s | None => d end.

(** Modelled from the spec: [s2.parseString] of the package small2, which is
    not part of the repository.  A string is percent-encoded when [encode]
    is set; an object is rendered one [key<eq>value] entry per own key whose
    value is not falsy, the entries joined with [sep] (by default those of a
    query string, [=] and [&]). *)
Definition parseString : parseString_t :=
  fun code encode sep eq =>
    let enc s := if encode then encodeURIComponent s else s in
    match code with
    | OfString s => enc s
    | OfObject o =>
        join (or_default sep "&")
          (map (fun kv => enc (fst kv) ++ or_default eq "=" ++ enc (to_string (snd kv)))
               (filter (fun kv => truthy (snd kv)) o))
    end.

(** Modelled from the spec: [s2.goneEmpty] of the package small2, which
    keeps a clause only when it is not empty: a non-empty value is returned
    as it is, an empty string or an empty array as [null]. *)
Definition goneEmpty : goneEmpty_t :=
  fun v =>
    match v with
    | JArr [] => JNull
    | _ => if truthy v then v else JNull
    end.

End Small2.

(** ** The digest of the package utility

    [utility.hmac(algorithm, key, data, encoding)] is not part of the
    repository.  It computes, with the [crypto] module of Node, the HMAC of
    the UTF-8 bytes of [data] under the UTF-8 bytes of [key] and returns the
    digest in [encoding], which is base64 when none is given; the example of
    its documentation is
    [hmac('sha1', 'I am a key', 'hello world') = 'pO6J0LKDxRRkvSECSEdxwKx84L0='].
    HMAC and SHA-1 are written out below from RFC 2104 and FIPS 180-4. *)

Module Utility.
Local Open Scope N_scope.

Definition bytes_of_string (s : string) : list N :=
  map N_of_ascii (list_ascii_of_string s).

(** *** SHA-1 (FIPS 180-4) on 32-bit words *)

Definition mask32 : N := 4294967295.

Definition add32 (a b : N) : N := N.land (a + b) mask32.

Definition rotl (n x : N) : N :=
  N.land (N.lor (N.shiftl x n) (N.shiftr x (32 - n))) mask32.

Definition not32 (x : N) : N := N.lxor x mask32.

(** The big-endian bytes of a number, [n] of them. *)
Fixpoint big_endian (n : nat) (x : N) : list N :=
  match n with
  | O => []
  | S n' => (big_endian n' (x / 256) ++ [x mod 256])%list
  end.

Fixpoint words_of_bytes (l : list N) : list N :=
  match l with
  | b0 :: b1 :: b2 :: b3 :: r =>
      (b0 * 16777216 + b1 * 65536 + b2 * 256 + b3) :: words_of_bytes r
  | _ => []
  end.

(** The message, one bit, zeros up to 56 modulo 64 bytes, and the length in
    bits on 8 bytes. *)
Definition pad (msg : list N) : list N :=
  let len := N.of_nat (List.length msg) in
  let zeros := (119 - len mod 64) mod 64 in
  (msg ++ 128 :: repeat 0 (N.to_nat zeros) ++ big_endian 8 (8 * len))%list.

(** The blocks of 16 words; [n] bounds their number. *)
Fixpoint blocks (n : nat) (ws : list N) : list (list N) :=
  match n, ws with
  | S n', _ :: _ => firstn 16 ws :: blocks n' (skipn 16 ws)
  | _, _ => []
  end.

(** The message schedule, latest word first. *)
Fixpoint schedule (n : nat) (rev_w : list N) : list N :=
  match n with
  | O => rev_w
  | S n' =>
      let w := rotl 1 (N.lxor (N.lxor (nth 2 rev_w 0) (nth 7 rev_w 0))
                              (N.lxor (nth 13 rev_w 0) (nth 15 rev_w 0))) in
      schedule n' (w :: rev_w)
  end.

Definition state : Type := N * N * N * N * N.

Definition round (s : state) (iw : nat * N) : state :=
  let '(a, b, c, d, e) := s in
  let '(i, w) := iw in
  let '(f, k) :=
    if (i <? 20)%nat then
      (N.lor (N.land b c) (N.land (not32 b) d), 1518500249)
    else if (i <? 40)%nat then
      (N.lxor (N.lxor b c) d, 1859775393)
    else if (i <? 60)%nat then
      (N.lor (N.lor (N.land b c) (N.land b d)) (N.land c d), 2400959708)
    else
      (N.lxor (N.lxor b c) d, 3395469782) in
  (add32 (add32 (add32 (add32 (rotl 5 a) f) e) k) w, a, rotl 30 b, c, d).

Definition compress (h : state) (block : list N) : state :=
  let w := rev (schedule 64 (rev block)) in
  let '(a, b, c, d, e) := fold_left round (combine (seq 0 80) w) h in
  let '(h0, h1, h2, h3, h4) := h in
  (add32 h0 a, add32 h1 b, add32 h2 c, add32 h3 d, add32 h4 e).

Definition initial : state :=
  (1732584193, 4023233417, 2562383102, 271733878, 3285377520).

(** The 20 bytes of the SHA-1 digest. *)
Definition sha1 (msg : list N) : list N :=
  let ws := words_of_bytes (pad msg) in
  let '(h0, h1, h2, h3, h4) :=
    fold_left compress (blocks (List.length ws) ws) initial in
  (big_endian 4 h0 ++ big_endian 4 h1 ++ big_endian 4 h2
     ++ big_endian 4 h3 ++ big_endian 4 h4)%list.

(** *** HMAC (RFC 2104) with SHA-1: blocks of 64 bytes *)

Definition block_key (key : list N) : list N :=
  let k := if (64 <? List.length key)%nat then sha1 key else key in
  (k ++ repeat 0 (64 - List.length k)%nat)%list.

Definition hmac_sha1 (key data : list N) : list N :=
  let k := block_key key in
  sha1 (map (N.lxor 92) k ++ sha1 (map (N.lxor 54) k ++ data))%list.

(** *** The encodings of a digest *)

Definition base64_alphabet : string :=
  "ABCDEFGHIJKLMNOPQRSTUVWXYZabcdefghijklmnopqrstuvwxyz0123456789+/".

Definition base64_char (n : N) : ascii :=
  match String.get (N.to_nat n) base64_alphabet with
  | Some c => c
  | None => "="%char
  end.

Fixpoint base64 (l : list N) : string :=
  match l with
  | [] => ""
  | [b0] =>
      String (base64_char (b0 / 4))
        (String (base64_char ((b0 mod 4) * 16)) "==")
  | [b0; b1] =>
      String (base64_char (b0 / 4))
        (String (base64_char ((b0 mod 4) * 16 + b1 / 16))
           (String (base64_char ((b1 mod 16) * 4)) "="))
  | b0 :: b1 :: b2 :: r =>
      String (base64_char (b0 / 4))
        (String (base64_char ((b0 mod 4) * 16 + b1 / 16))
           (String (base64_char ((b1 mod 16) * 4 + b2 / 64))
              (String (base64_char (b2 mod 64)) (base64 r))))
  end.

Definition hex_char (n : N) : ascii :=
  if n <? 10 then ascii_of_N (48 + n) else ascii_of_N (87 + n).

Fixpoint hex (l : list N) : string :=
  match l with
  | [] => ""
  | b :: r => String (hex_char (b / 16)) (String (hex_char (b mod 16)) (hex r))
  end.

(** [utility.hmac(algorithm, key, data)], as [_signAliyun] calls it: with
    the algorithm [sha1] and no encoding.  (No other algorithm is asked for
    by the code; none is modelled, and the result is then empty.) *)
Definition hmac (algorithm key data : string) : string :=
  if (algorithm =? "sha1")%string
  then base64 (hmac_sha1 (bytes_of_string key) (bytes_of_string data))
  else "".

End Utility.

(** ** The transport client *)

Module CloudClient.
Import JS.

Record opts : Type := mk_opts {
  version : string;
  sdkVersion : string;
  method : string;
  timeout : Z;
  connect_timeout : Z;
  host : string;
  protocol : string;
  gzip : bool;
  debug : bool;
  key_type : string;
  signatureMethod : string;
  signatureVersion : string;
  accessKeyId : string;
  secret : string;
  baseURI : string
}.

Definition default_opts : opts := {|
  version := "v2";
  sdkVersion := "v2.0.6";
  method := "GET";
  timeout := 30;
  connect_timeout := 30;
  host := "http://opensearch.aliyuncs.com";
  protocol := "http";
  gzip := false;
  debug := false;
  key_type := "aliyun";
  signatureMethod := "HMAC-SHA1";
  signatureVersion := "1.0";
  accessKeyId := "";
  secret := "";
  baseURI := ""
|}.

(** The options a caller may pass to the constructor; a field left out is
    [None]. *)
Record user_opts : Type := mk_user_opts {
  u_version : option string;
  u_sdkVersion : option string;
  u_method : option string;
  u_timeout : option Z;
  u_connect_timeout : option Z;
  u_host : option string;
  u_protocol : option string;
  u_gzip : option bool;
  u_debug : option bool;
  u_key_type : option string;
  u_signatureMethod : option string;
  u_signatureVersion : option string;
  u_accessKeyId : option string;
  u_secret : option string;
  u_baseURI : option string
}.

Definition no_opts : user_opts :=
  mk_user_opts None None None None None None None None None None None None
    None None None.

Definition pick {A : Type} (u : option A) (d : A) : A :=
  match u with Some a => a | None => d end.

(** [extend({}, default_opts, opts)] *)
Definition extend (d : opts) (u : user_opts) : opts := {|
  version := pick (u_version u) (version d);
  sdkVersion := pick (u_sdkVersion u) (sdkVersion d);
  method := pick (u_method u) (method d);
  timeout := pick (u_timeout u) (timeout d);
  connect_timeout := pick (u_connect_timeout u) (connect_timeout d);
  host := pick (u_host u) (host d);
  protocol := pick (u_protocol u) (protocol d);
  gzip := pick (u_gzip u) (gzip d);
  debug := pick (u_debug u) (debug d);
  key_type := pick (u_key_type u) (key_type d);
  signatureMethod := pick (u_signatureMethod u) (signatureMethod d);
  signatureVersion := pick (u_signatureVersion u) (signatureVersion d);
  accessKeyId := pick (u_accessKeyId u) (accessKeyId d);
  secret := pick (u_secret u) (secret d);
  baseURI := pick (u_baseURI u) (baseURI d)
|}.

(** [s.replace(/\/$/g, '')] *)
Fixpoint strip_trailing (c : ascii) (s : string) : string :=
  match s with
  | EmptyString => EmptyString
  | String x EmptyString => if (x =? c)%char then EmptyString else s
  | String x s' => String x (strip_trailing c s')
  end.

Definition set_host (h : string) (o : opts) : opts :=
  mk_opts (version o) (sdkVersion o) (method o) (timeout o)
    (connect_timeout o) h (protocol o) (gzip o) (debug o) (key_type o)
    (signatureMethod o) (signatureVersion o) (accessKeyId o) (secret o)
    (baseURI o).

Definition set_baseURI (b : string) (o : opts) : opts :=
  mk_opts (version o) (sdkVersion o) (method o) (timeout o)
    (connect_timeout o) (host o) (protocol o) (gzip o) (debug o) (key_type o)
    (signatureMethod o) (signatureVersion o) (accessKeyId o) (secret o) b.

Definition set_method (m : string) (o : opts) : opts :=
  mk_opts (version o) (sdkVersion o) m (timeout o)
    (connect_timeout o) (host o) (protocol o) (gzip o) (debug o) (key_type o)
    (signatureMethod o) (signatureVersion o) (accessKeyId o) (secret o)
    (baseURI o).

(** The options with another protocol. *)
Definition set_protocol (x : string) (o : opts) : opts :=
  mk_opts (version o) (sdkVersion o) (method o) (timeout o)
    (connect_timeout o) (host o) x (gzip o) (debug o) (key_type o)
    (signatureMethod o) (signatureVersion o) (accessKeyId o) (secret o)
    (baseURI o).

(** [function CloudClient(opts)]: the stored [_opts] of the new client. *)
Definition CloudClient (u : user_opts) : opts :=
  let o := extend default_opts u in
  let o := set_host (strip_trailing "/" (host o)) o in
  set_baseURI (host o) o.

(** What a call reads from its environment: the clock, the random part of
    the nonce ([parseInt(Math.random() * 8999 + 1000)]) and the formatted
    UTC date. *)
Record env : Type := mk_env {
  now : Z;
  random_part : Z;
  utc_date : string
}.

(** [Date.now() + '' + parseInt(Math.random() * 8999 + 1000)] *)
Definition _nonceAliyun (e : env) : string :=
  Z_to_string (now e) ++ "" ++ Z_to_string (random_part e).

(** [_paramsFilter(parameters)] *)
Definition _paramsFilter (parameters : obj value) : obj value :=
  let keys := sort (keys parameters) in
  fold_left
    (fun params k =>
       let v := match get parameters k with Some v => v | None => JUndefined end in
       if (negb (k =? "Signature") && (truthy v || is_zero v))%bool
       then set k v params
       else params)
    keys [].

(** The request handed to the HTTP library. *)
Record http_request : Type := mk_request {
  req_method : string;
  req_url : string;
  req_user_agent : string;
  req_timeout : Z;
  req_gzip : bool
}.

Fixpoint contains_char (c : ascii) (s : string) : bool :=
  match s with
  | EmptyString => false
  | String x s' => (x =? c)%char || contains_char c s'
  end.

Section Calls.
(** [s2.parseString], [utility.hmac] and [String.prototype.toUpperCase] *)
Variable parseString : Small2.parseString_t.
Variable hmac : string -> string -> string -> string.
Variable toUpperCase : string -> string.

(** [_percentEncode(code)] *)
Definition _percentEncode (code : Small2.source) : string :=
  let res := parseString code true None None in
  let res := replace_all "*" "%2A" res in
  let res := replace_all "!" "%21" res in
  let res := replace_all "'" "%27" res in
  let res := replace_all "(" "%28" res in
  let res := replace_all ")" "%29" res in
  res.

(** [_signAliyun(params, opts)].
    Modelled from the spec: [extend({}, params)] (package extend) clones
    the param map; values are immutable here, so the clone is the map. *)
Definition _signAliyun (params : obj value) (o : opts) : string :=
  let _params := params in
  let _params :=
    match get _params "sign_mode" with
    | Some v => if is_one v then delete "items" _params else _params
    | None => _params
    end in
  let _params := _paramsFilter _params in
  let query := _percentEncode (Small2.OfObject _params) in
  let baseString :=
    toUpperCase (method o) ++ "&%2F&" ++ _percentEncode (Small2.OfString query) in
  hmac "sha1" (secret o ++ "&") baseString.

(** [_httpRequest(url, params, opts)]: the request that is issued. *)
Definition _httpRequest (url : string) (params : obj value) (o : opts)
  : http_request :=
  let paramSerialize := _percentEncode (Small2.OfObject params) in
  let method := toUpperCase (method o) in
  let url :=
    if method =? "GET"
    then url ++ (if contains_char "?" url then "&" else "?") ++ paramSerialize
    else url in
  {| req_method := method;
     req_url := url;
     req_user_agent := "opensearch/node sdk " ++ sdkVersion o;
     req_timeout := if (timeout o =? 0)%Z then 30%Z else timeout o;
     req_gzip := gzip o || false |}.

(** [CloudClient.prototype.callRequest(path, params, method)].  The client
    is its [_opts]; the call returns the [_opts] it leaves behind, the
    param map (the caller's object, which it fills in) and the request it
    issues, if any.  An omitted [method] is the empty string, an omitted
    [params] is [None]. *)
Definition callRequest (e : env) (path : string) (params : option (obj value))
    (method_arg : string) (this_opts : opts)
  : opts * obj value * option http_request :=
  let url := baseURI this_opts ++ path in
  let o := set_method (str_or method_arg (method this_opts)) this_opts in
  let params := match params with Some p => p | None => [] end in
  let params := set "Version" (JStr (version o)) params in
  let params := set "AccessKeyId" (JStr (accessKeyId o)) params in
  let params := set "SignatureMethod" (JStr (signatureMethod o)) params in
  let params := set "SignatureVersion" (JStr (signatureVersion o)) params in
  let params := set "SignatureNonce" (JStr (_nonceAliyun e)) params in
  let params := set "Timestamp" (JStr (utc_date e)) params in
  let params := set "Signature" (JStr (_signAliyun params o)) params in
  if protocol o =? "http"
  then (o, params, Some (_httpRequest url params o))
  else (o, params, None).
End Calls.

End CloudClient.

(** ** The query builder *)

Module CloudSearch.
Import JS.

Definition SORT_INCREASE : string := "+".
Definition SORT_DECREASE : string := "-".
Definition SEARCH_TYPE_SCAN : string := "scan".

(** The [_opts] of a builder. *)
Record opts : Type := mk_opts {
  indexes : list string;
  summary : obj (obj value);
  clauseConfig_opt : string;
  format : string;
  start : value;
  hits : value;
  sort : obj string;
  filters : string;
  aggregate : obj (list (obj value));
  distinct : obj (obj value);
  fetches : list string;
  rerankSize : value;
  query : string;
  formulaName : string;
  firstFormulaName : string;
  kvpair : string;
  QPName : list string;
  functions : obj (list string);
  customParams : obj string;
  scrollId : value;
  searchType : string;
  scroll : value;
  path : string
}.

Definition default_opts : opts := {|
  indexes := [];
  summary := [];
  clauseConfig_opt := "";
  format := "json";
  start := JNum 0;
  hits := JNum 20;
  sort := [];
  filters := "";
  aggregate := [];
  distinct := [];
  fetches := [];
  rerankSize := JNum 200;
  query := "";
  formulaName := "";
  firstFormulaName := "";
  kvpair := "";
  QPName := [];
  functions := [];
  customParams := [];
  scrollId := JNull;
  searchType := "";
  scroll := JNull;
  path := "/search"
|}.

(** [this._opts.f = x], one definition per field that is assigned. *)
Definition with_indexes (x : list string) (o : opts) : opts :=
  mk_opts x (summary o) (clauseConfig_opt o) (format o) (start o) (hits o)
    (sort o) (filters o) (aggregate o) (distinct o) (fetches o)
    (rerankSize o) (query o) (formulaName o) (firstFormulaName o) (kvpair o)
    (QPName o) (functions o) (customParams o) (scrollId o) (searchType o)
    (scroll o) (path o).

Definition with_summary (x : obj (obj value)) (o : opts) : opts :=
  mk_opts (indexes o) x (clauseConfig_opt o) (format o) (start o) (hits o)
    (sort o) (filters o) (aggregate o) (distinct o) (fetches o)
    (rerankSize o) (query o) (formulaName o) (firstFormulaName o) (kvpair o)
    (QPName o) (functions o) (customParams o) (scrollId o) (searchType o)
    (scroll o) (path o).

Definition with_format (x : string) (o : opts) : opts :=
  mk_opts (indexes o) (summary o) (clauseConfig_opt o) x (start o) (hits o)
    (sort o) (filters o) (aggregate o) (distinct o) (fetches o)
    (rerankSize o) (query o) (formulaName o) (firstFormulaName o) (kvpair o)
    (QPName o) (functions o) (customParams o) (scrollId o) (searchType o)
    (scroll o) (path o).

Definition with_start (x : value) (o : opts) : opts :=
  mk_opts (indexes o) (summary o) (clauseConfig_opt o) (format o) x (hits o)
    (sort o) (filters o) (aggregate o) (distinct o) (fetches o)
    (rerankSize o) (query o) (formulaName o) (firstFormulaName o) (kvpair o)
    (QPName o) (functions o) (customParams o) (scrollId o) (searchType o)
    (scroll o) (path o).

Definition with_hits (x : value) (o : opts) : opts :=
  mk_opts (indexes o) (summary o) (clauseConfig_opt o) (format o) (start o) x
    (sort o) (filters o) (aggregate o) (distinct o) (fetches o)
    (rerankSize o) (query o) (formulaName o) (firstFormulaName o) (kvpair o)
    (QPName o) (functions o) (customParams o) (scrollId o) (searchType o)
    (scroll o) (path o).

Definition with_sort (x : obj string) (o : opts) : opts :=
  mk_opts (indexes o) (summary o) (clauseConfig_opt o) (format o) (start o)
    (hits o) x (filters o) (aggregate o) (distinct o) (fetches o)
    (rerankSize o) (query o) (formulaName o) (firstFormulaName o) (kvpair o)
    (QPName o) (functions o) (customParams o) (scrollId o) (searchType o)
    (scroll o) (path o).

Definition with_filters (x : string) (o : opts) : opts :=
  mk_opts (indexes o) (summary o) (clauseConfig_opt o) (format o) (start o)
    (hits o) (sort o) x (aggregate o) (distinct o) (fetches o)
    (rerankSize o) (query o) (formulaName o) (firstFormulaName o) (kvpair o)
    (QPName o) (functions o) (customParams o) (scrollId o) (searchType o)
    (scroll o) (path o).

Definition with_aggregate (x : obj (list (obj value))) (o : opts) : opts :=
  mk_opts (indexes o) (summary o) (clauseConfig_opt o) (format o) (start o)
    (hits o) (sort o) (filters o) x (distinct o) (fetches o) (rerankSize o)
    (query o) (formulaName o) (firstFormulaName o) (kvpair o) (QPName o)
    (functions o) (customParams o) (scrollId o) (searchType o) (scroll o)
    (path o).

Definition with_distinct (x : obj (obj value)) (o : opts) : opts :=
  mk_opts (indexes o) (summary o) (clauseConfig_opt o) (format o) (start o)
    (hits o) (sort o) (filters o) (aggregate o) x (fetches o) (rerankSize o)
    (query o) (formulaName o) (firstFormulaName o) (kvpair o) (QPName o)
    (functions o) (customParams o) (scrollId o) (searchType o) (scroll o)
    (path o).

Definition with_fetches (x : list string) (o : opts) : opts :=
  mk_opts (indexes o) (summary o) (clauseConfig_opt o) (format o) (start o)
    (hits o) (sort o) (filters o) (aggregate o) (distinct o) x
    (rerankSize o) (query o) (formulaName o) (firstFormulaName o) (kvpair o)
    (QPName o) (functions o) (customParams o) (scrollId o) (searchType o)
    (scroll o) (path o).

Definition with_rerankSize (x : value) (o : opts) : opts :=
  mk_opts (indexes o) (summary o) (clauseConfig_opt o) (format o) (start o)
    (hits o) (sort o) (filters o) (aggregate o) (distinct o) (fetches o) x
    (query o) (formulaName o) (firstFormulaName o) (kvpair o) (QPName o)
    (functions o) (customParams o) (scrollId o) (searchType o) (scroll o)
    (path o).

Definition with_query (x : string) (o : opts) : opts :=
  mk_opts (indexes o) (summary o) (clauseConfig_opt o) (format o) (start o)
    (hits o) (sort o) (filters o) (aggregate o) (distinct o) (fetches o)
    (rerankSize o) x (formulaName o) (firstFormulaName o) (kvpair o)
    (QPName o) (functions o) (customParams o) (scrollId o) (searchType o)
    (scroll o) (path o).

Definition with_formulaName (x : string) (o : opts) : opts :=
  mk_opts (indexes o) (summary o) (clauseConfig_opt o) (format o) (start o)
    (hits o) (sort o) (filters o) (aggregate o) (distinct o) (fetches o)
    (rerankSize o) (query o) x (firstFormulaName o) (kvpair o) (QPName o)
    (functions o) (customParams o) (scrollId o) (searchType o) (scroll o)
    (path o).

Definition with_firstFormulaName (x : string) (o : opts) : opts :=
  mk_opts (indexes o) (summary o) (clauseConfig_opt o) (format o) (start o)
    (hits o) (sort o) (filters o) (aggregate o) (distinct o) (fetches o)
    (rerankSize o) (query o) (formulaName o) x (kvpair o) (QPName o)
    (functions o) (customParams o) (scrollId o) (searchType o) (scroll o)
    (path o).

Definition with_kvpair (x : string) (o : opts) : opts :=
  mk_opts (indexes o) (summary o) (clauseConfig_opt o) (format o) (start o)
    (hits o) (sort o) (filters o) (aggregate o) (distinct o) (fetches o)
    (rerankSize o) (query o) (formulaName o) (firstFormulaName o) x
    (QPName o) (functions o) (customParams o) (scrollId o) (searchType o)
    (scroll o) (path o).

Definition with_QPName (x : list string) (o : opts) : opts :=
  mk_opts (indexes o) (summary o) (clauseConfig_opt o) (format o) (start o)
    (hits o) (sort o) (filters o) (aggregate o) (distinct o) (fetches o)
    (rerankSize o) (query o) (formulaName o) (firstFormulaName o) (kvpair o)
    x (functions o) (customParams o) (scrollId o) (searchType o) (scroll o)
    (path o).

Definition with_functions (x : obj (list string)) (o : opts) : opts :=
  mk_opts (indexes o) (summary o) (clauseConfig_opt o) (format o) (start o)
    (hits o) (sort o) (filters o) (aggregate o) (distinct o) (fetches o)
    (rerankSize o) (query o) (formulaName o) (firstFormulaName o) (kvpair o)
    (QPName o) x (customParams o) (scrollId o) (searchType o) (scroll o)
    (path o).

Definition with_customParams (x : obj string) (o : opts) : opts :=
  mk_opts (indexes o) (summary o) (clauseConfig_opt o) (format o) (start o)
    (hits o) (sort o) (filters o) (aggregate o) (distinct o) (fetches o)
    (rerankSize o) (query o) (formulaName o) (firstFormulaName o) (kvpair o)
    (QPName o) (functions o) x (scrollId o) (searchType o) (scroll o)
    (path o).

Definition with_scrollId (x : value) (o : opts) : opts :=
  mk_opts (indexes o) (summary o) (clauseConfig_opt o) (format o) (start o)
    (hits o) (sort o) (filters o) (aggregate o) (distinct o) (fetches o)
    (rerankSize o) (query o) (formulaName o) (firstFormulaName o) (kvpair o)
    (QPName o) (functions o) (customParams o) x (searchType o) (scroll o)
    (path o).

Definition with_searchType (x : string) (o : opts) : opts :=
  mk_opts (indexes o) (summary o) (clauseConfig_opt o) (format o) (start o)
    (hits o) (sort o) (filters o) (aggregate o) (distinct o) (fetches o)
    (rerankSize o) (query o) (formulaName o) (firstFormulaName o) (kvpair o)
    (QPName o) (functions o) (customParams o) (scrollId o) x (scroll o)
    (path o).

Definition with_scroll (x : value) (o : opts) : opts :=
  mk_opts (indexes o) (summary o) (clauseConfig_opt o) (format o) (start o)
    (hits o) (sort o) (filters o) (aggregate o) (distinct o) (fetches o)
    (rerankSize o) (query o) (formulaName o) (firstFormulaName o) (kvpair o)
    (QPName o) (functions o) (customParams o) (scrollId o) (searchType o) x
    (path o).

(** A parameter documented as [string\array]: one name or a list of
    names.  An omitted or empty argument is [One ""]. *)
Inductive names : Type :=
| One (s : string)
| Many (l : list string).

(** [!!x] for such an argument: every array is truthy. *)
Definition names_truthy (x : names) : bool :=
  match x with
  | One s => negb (s =? "")
  | Many _ => true
  end.

(** [a.concat(x)]: a new array; [a] is left as it is. *)
Definition array_concat (a : list string) (x : names) : list string :=
  match x with
  | One s => (a ++ [s])%list
  | Many l => (a ++ l)%list
  end.

(** [l.map(f)] for a callback that may throw and updates a state. *)
Fixpoint each {A S : Type} (f : A -> S -> completion S) (l : list A) (s : S)
  : completion S :=
  match l with
  | [] => Normal s
  | a :: l' => s' <- f a s ;; each f l' s'
  end.

(** [CloudSearch.prototype.addIndex(indexName)].  A builder object has the
    properties [_opts] and [client] and no other: [self.indexes] is
    [undefined], and reading [self.indexes.indexOf] throws for the first
    element of an array.  A string has no [map] and is pushed. *)
Definition addIndex (indexName : names) (o : opts) : completion opts :=
  let indexes := indexes o in
  match indexName with
  | Many l =>
      indexes <-
        each (fun (e : string) (acc : list string) =>
                ThrowTypeError "Cannot read property 'indexOf' of undefined")
             l indexes ;;
      Normal (with_indexes indexes o)
  | One s => Normal (with_indexes (indexes ++ [s])%list o)
  end.

(** [CloudSearch.prototype.removeIndex(indexName)]: [splice] at the first
    occurrence. *)
Fixpoint remove_first (x : string) (l : list string) : list string :=
  match l with
  | [] => []
  | y :: l' => if y =? x then l' else y :: remove_first x l'
  end.

Definition removeIndex (indexName : string) (o : opts) : opts :=
  with_indexes (remove_first indexName (indexes o)) o.

Definition getSearchIndexes (o : opts) : list string := indexes o.

Definition setFormulaName (formulaName : string) (o : opts) : opts :=
  with_formulaName formulaName o.
Definition getFormulaName (o : opts) : string := formulaName o.
Definition setFirstFormulaName (formulaName : string) (o : opts) : opts :=
  with_firstFormulaName formulaName o.
Definition getFirstFormulaName (o : opts) : string := firstFormulaName o.

Definition getSummary (o : opts) : obj (obj value) := summary o.

Definition setFormat (format : string) (o : opts) : opts := with_format format o.
Definition getFormat (o : opts) : string := format o.

(** [this._opts.start = start + 0] *)
Definition setStartHit (start : value) (o : opts) : opts :=
  with_start (plus_zero start) o.
Definition getStartHit (o : opts) : value := start o.

(** [this._opts.hits = (hits || 20)] *)
Definition setHits (hits : value) (o : opts) : opts :=
  with_hits (if truthy hits then hits else JNum 20) o.
Definition getHits (o : opts) : value := hits o.

(** [CloudSearch.prototype.addSort(field, sortChar)]: the value returned
    ([false] or [undefined]) and the [_opts] left behind. *)
Definition addSort (field sortChar : string) (o : opts) : value * opts :=
  if field =? "" then (JBool false, o)
  else (JUndefined, with_sort (set field (str_or sortChar SORT_DECREASE) (sort o)) o).

Definition removeSort (field : string) (o : opts) : opts :=
  with_sort (delete field (sort o)) o.

Definition getSort (o : opts) : obj string := sort o.

(** [s.replace(/;$/g, '')] *)
Definition strip_semicolon (s : string) : string :=
  CloudClient.strip_trailing ";" s.

(** [CloudSearch.prototype.getSortString()] *)
Definition getSortString (o : opts) : string :=
  let sort := getSort o in
  let sortString :=
    fold_left (fun acc kv => acc ++ snd kv ++ fst kv ++ ";") sort "" in
  strip_semicolon sortString.

(** [CloudSearch.prototype.addFilter(filter, operator)] *)
Definition addFilter (filter operator : string) (o : opts) : opts :=
  let operator := str_or operator "AND" in
  if ((filters o =? "") && negb (filter =? ""))%bool then with_filters filter o
  else if negb (filter =? "")
       then with_filters (filters o ++ " " ++ operator ++ " " ++ filter) o
       else o.
Definition getFilter (o : opts) : string := filters o.

Definition getAggregate (o : opts) : obj (list (obj value)) := aggregate o.
Definition getDistinct (o : opts) : obj (obj value) := distinct o.

Definition setQueryString (query : string) (o : opts) : opts := with_query query o.
Definition getQuery (o : opts) : string := query o.

(** [CloudSearch.prototype.addFetchFields(field)].  [this._opts] is a plain
    object and has no [indexOf], so calling it throws; inside the callback
    of [map], [this] is not the builder and has no [_opts], so reading
    [this._opts.indexOf] throws for the first element. *)
Definition addFetchFields (field : names) (o : opts) : completion opts :=
  let fetches := fetches o in
  match field with
  | Many l =>
      fetches <-
        each (fun (e : string) (acc : list string) =>
                ThrowTypeError "Cannot read property 'indexOf' of undefined")
             l fetches ;;
      Normal (with_fetches fetches o)
  | One s => ThrowTypeError "this._opts.indexOf is not a function"
  end.
Definition getFetchFields (o : opts) : list string := fetches o.

Definition setPair (pair : string) (o : opts) : opts := with_kvpair pair o.
Definition getPair (o : opts) : string := kvpair o.

(** [this._opts.customParams[paramKey] = paramValue] *)
Definition addCustomParam (paramKey paramValue : string) (o : opts) : opts :=
  with_customParams (set paramKey paramValue (customParams o)) o.
Definition getCustomParam (o : opts) : obj string := customParams o.

Definition addRerankSize (rerankSize : value) (o : opts) : opts :=
  with_rerankSize rerankSize o.
Definition getRerankSize (o : opts) : value := rerankSize o.

(** [CloudSearch.prototype.addQPName(QPName)]: the array [concat] returns is
    dropped. *)
Definition addQPName (QPName_arg : names) (o : opts) : opts :=
  let qp := QPName o in
  let _ := array_concat qp QPName_arg in
  with_QPName qp o.
Definition getQPName (o : opts) : list string := QPName o.

(** [this._opts.functions[functionName] || []]: an own array, a fresh empty
    array, or a member inherited from [Object.prototype], which is truthy
    and has no [concat]. *)
Inductive looked_up : Type :=
| AnArray (l : list string)
| Inherited.

(** [CloudSearch.prototype.addDisabledFunction(functionName, disableValue)] *)
Definition addDisabledFunction (functionName : string) (disableValue : names)
    (o : opts) : completion opts :=
  let functions_ :=
    match get (functions o) functionName with
    | Some l => AnArray l
    | None => if inherited functionName then Inherited else AnArray []
    end in
  if negb (names_truthy disableValue) then Normal o
  else
    match functions_ with
    | Inherited => ThrowTypeError "functions.concat is not a function"
    | AnArray l =>
        let _ := array_concat l disableValue in
        Normal (with_functions (set functionName l (functions o)) o)
    end.

Definition addDisabledQP (disableValue : names) (o : opts) : completion opts :=
  addDisabledFunction "qp" disableValue o.

Definition getDisabledFunction (o : opts) : obj (list string) := functions o.

(** [CloudSearch.prototype.getDisabledFunctionString()] *)
Definition getDisabledFunctionString (o : opts) : string :=
  join ";"
    (map (fun kv => fst kv ++ ":" ++ join "," (snd kv)) (getDisabledFunction o)).

Definition setScroll (scroll : value) (o : opts) : opts := with_scroll scroll o.
Definition getScroll (o : opts) : value := scroll o.
Definition setScrollId (scrollId : value) (o : opts) : opts :=
  with_scrollId scrollId o.
Definition getScrollId (o : opts) : value := scrollId o.
Definition setSearchType (searchType : string) (o : opts) : opts :=
  with_searchType searchType o.
Definition getSearchType (o : opts) : string := searchType o.

(** [CloudSearch.prototype.clauseConfig()] ([clauseConfig_opt] is the
    field of [opts]) *)
Definition clauseConfig (o : opts) : string :=
  let config := [ "format:" ++ getFormat o;
                  "start:" ++ to_string (getStartHit o);
                  "hit:" ++ to_string (getHits o) ] in
  let r := getRerankSize o in
  let config :=
    if truthy r then List.app config ["rerank_size:" ++ to_string r]
    else config in
  join "," config.

(** A builder: its [_opts] and the [_opts] of its client. *)
Record builder : Type := mk_builder {
  _opts : opts;
  client : CloudClient.opts
}.

(** [new CloudSearch(client)].  The copy [extend] makes of [default_opts] is
    shallow: builders created this way share the arrays and objects of
    [default_opts].  The properties below are about one builder. *)
Definition CloudSearch (client : CloudClient.opts) : builder :=
  mk_builder default_opts client.

(** The one-shot options of [search] and [scroll]; an option left out is the
    empty string, [undefined], [One ""] or [None]. *)
Record call_opts : Type := mk_call_opts {
  q_query : string;
  q_fetch_field : names;
  q_format : string;
  q_start : value;
  q_hits : value;
  q_filters : string;
  q_kvpair : string;
  q_rerankSize : value;
  q_sort : option (obj string);
  q_aggregate : option (obj (list (obj value)));
  q_distinct : option (obj (obj value));
  q_formula_name : string;
  q_summary : option (obj (obj value));
  q_qp : names;
  q_disable_qp : value;
  q_disable : names;
  q_scroll_id : value;
  q_scroll : value
}.

(** An options object without any option, [{}].  It is also what [extract]
    reads, in scroll mode, of the empty array that [scroll()] passes on when
    called without options: in that mode it reads no property that an array
    has.  (In search mode it reads [sort], which on an array is the function
    [Array.prototype.sort].) *)
Definition no_call_opts : call_opts :=
  mk_call_opts "" (One "") "" JUndefined JUndefined "" "" JUndefined None None
    None "" None (One "") JUndefined (One "") JUndefined JUndefined.

Definition when (b : bool) (f : opts -> opts) (o : opts) : opts :=
  if b then f o else o.

Definition when_some {A : Type} (x : option A) (f : A -> opts -> opts)
    (o : opts) : opts :=
  match x with Some a => f a o | None => o end.

(** [CloudSearch.prototype.extract(opts, type)] *)
Definition extract (q : option call_opts) (type : string) (o : opts)
  : completion opts :=
  let type := str_or type "search" in
  match q with
  | None => Normal o
  | Some q =>
      let o := when (negb (q_query q =? "")) (setQueryString (q_query q)) o in
      o <- (if names_truthy (q_fetch_field q)
            then addFetchFields (q_fetch_field q) o else Normal o) ;;
      let o := when (negb (q_format q =? "")) (setFormat (q_format q)) o in
      let o := when (truthy (q_start q)) (setStartHit (q_start q)) o in
      let o := when (truthy (q_hits q)) (setHits (q_hits q)) o in
      let o := when (negb (q_filters q =? "")) (addFilter (q_filters q) "") o in
      let o := when (negb (q_kvpair q =? "")) (setPair (q_kvpair q)) o in
      let o := when (truthy (q_rerankSize q)) (addRerankSize (q_rerankSize q)) o in
      if type =? "search" then
        let o := when_some (q_sort q) with_sort o in
        let o := when_some (q_aggregate q) with_aggregate o in
        let o := when_some (q_distinct q) with_distinct o in
        let o := when (negb (q_formula_name q =? ""))
                      (setFormulaName (q_formula_name q)) o in
        let o := when_some (q_summary q) with_summary o in
        let o := when (names_truthy (q_qp q)) (addQPName (q_qp q)) o in
        if truthy (q_disable_qp q) then addDisabledQP (q_disable q) o
        else Normal o
      else if type =? "scroll" then
        let o := when (truthy (q_scroll_id q)) (setScrollId (q_scroll_id q)) o in
        let o := when (truthy (q_scroll q)) (setScroll (q_scroll q)) o in
        Normal (setSearchType SEARCH_TYPE_SCAN o)
      else Normal o
  end.

Section Calls.
(** [s2.parseString] and [s2.goneEmpty]; [utility.hmac] and
    [String.prototype.toUpperCase] for the client. *)
Variable parseString : Small2.parseString_t.
Variable goneEmpty : Small2.goneEmpty_t.
Variable hmac : string -> string -> string -> string.
Variable toUpperCase : string -> string.

(** [s2.parseString(e, false, ',', ':')] *)
Definition render (e : obj value) : string :=
  parseString (Small2.OfObject e) false (Some ",") (Some ":").

(** [CloudSearch.prototype.getSummaryString()] *)
Definition getSummaryString (o : opts) : string :=
  join ";" (map (fun kv => render (snd kv)) (getSummary o)).

(** [CloudSearch.prototype.getAggregateString()] *)
Definition getAggregateString (o : opts) : string :=
  join ";" (flat_map (fun kv => map render (snd kv)) (getAggregate o)).

(** [CloudSearch.prototype.getDistinctString()] *)
Definition getDistinctString (o : opts) : string :=
  join ";" (map (fun kv => render (snd kv)) (getDistinct o)).

(** [(temp = s2.goneEmpty(x)) && (target[k] = temp)] *)
Definition put (k : string) (x : value) (target : obj value) : obj value :=
  let temp := goneEmpty x in
  if truthy temp then set k temp target else target.

(** [(temp = s2.goneEmpty(x)) && (target[k] = temp.join(sep))] *)
Definition put_joined (k sep : string) (x : value) (target : obj value)
  : completion (obj value) :=
  let temp := goneEmpty x in
  if truthy temp then
    match array_join sep temp with
    | Some s => Normal (set k (JStr s) target)
    | None => ThrowTypeError "temp.join is not a function"
    end
  else Normal target.

(** The clause map [haquery] that [callQuery] builds. *)
Definition haquery (type : string) (o : opts) : obj value :=
  let h := [] in
  let h := set "query" (JStr (str_or (getQuery o) "''" ++ "")) h in
  let h := set "config" (JStr (clauseConfig o)) h in
  let h := put "filter" (JStr (getFilter o)) h in
  let h := put "kvpairs" (JStr (getPair o)) h in
  if type =? "search" then
    let h := put "sort" (JStr (getSortString o)) h in
    let h := put "distinct" (JStr (getDistinctString o)) h in
    let h := put "aggregate" (JStr (getAggregateString o)) h in
    h
  else h.

(** The param map [callQuery] hands to the client. *)
Definition query_params (type : string) (o : opts) : completion (obj value) :=
  let type := str_or type "search" in
  let haquery := haquery type o in
  let params := [] in
  let params :=
    set "query"
      (JStr (replace_all "&" "&&"
               (parseString (Small2.OfObject haquery) false None None)))
      params in
  let params := set "index_name" (JStr (join ";" (getSearchIndexes o))) params in
  let params := set "Format" (JStr (getFormat o)) params in
  let params :=
    fold_left (fun p kv => set (fst kv) (JStr (snd kv)) p)
              (getCustomParam o) params in
  params <- put_joined "fetch_fields" ";" (JArr (map JStr (getFetchFields o)))
              params ;;
  if type =? "search" then
    let params := put "formula_name" (JStr (getFormulaName o)) params in
    let params :=
      put "first_formula_name" (JStr (getFirstFormulaName o)) params in
    let params := put "summary" (JStr (getSummaryString o)) params in
    params <- put_joined "qp" "," (JArr (map JStr (getQPName o))) params ;;
    Normal (put "disable" (JStr (getDisabledFunctionString o)) params)
  else if type =? "scroll" then
    let params := put "scroll" (getScroll o) params in
    let params := put "scroll_id" (getScrollId o) params in
    Normal (set "search_type" (JStr SEARCH_TYPE_SCAN) params)
  else Normal params.

(** What a call of the builder leaves and yields: the builder, the param
    map as the client completed it, and the request. *)
Definition outcome : Type :=
  builder * obj value * option CloudClient.http_request.

(** [CloudSearch.prototype.callQuery(type)] *)
Definition callQuery (e : CloudClient.env) (type : string) (b : builder)
  : completion outcome :=
  params <- query_params type (_opts b) ;;
  let '(c, params, r) :=
    CloudClient.callRequest parseString hmac toUpperCase e
      (path (_opts b)) (Some params) "GET" (client b) in
  Normal (mk_builder (_opts b) c, params, r).

(** [CloudSearch.prototype.search(opts)], called with an options object.
    (Called without one, [search] hands an empty array to [extract], which
    finds the function [Array.prototype.sort] under [sort] and stores it as
    the sort map of the builder: a state that [opts] does not hold.) *)
Definition search (e : CloudClient.env) (q : call_opts) (b : builder)
  : completion outcome :=
  o <- extract (Some q) "" (_opts b) ;;
  callQuery e "" (mk_builder o (client b)).

(** [CloudSearch.prototype.scroll(opts)] ([scroll] is the field of
    [opts]); [None] is a call without options. *)
Definition scroll_ (e : CloudClient.env) (q : option call_opts) (b : builder)
  : completion outcome :=
  let q := match q with Some q => q | None => no_call_opts end in
  o <- extract (Some q) "scroll" (_opts b) ;;
  callQuery e "scroll" (mk_builder o (client b)).
End Calls.

(** *** The other mutators of the builder *)

Definition clearFormulaName (o : opts) : opts := with_formulaName "" o.
Definition clearFirstFormulaName (o : opts) : opts := with_firstFormulaName "" o.

(** [l.indexOf(x)]: the first position of [x], or [-1]. *)
Fixpoint indexOf (x : string) (l : list string) : Z :=
  match l with
  | [] => (-1)%Z
  | y :: l' =>
      if y =? x then 0%Z
      else let i := indexOf x l' in
           if (i =? -1)%Z then (-1)%Z else (i + 1)%Z
  end.

(** [l.splice(start, 1)]: a negative [start] counts from the end. *)
Definition splice_one (start : Z) (l : list string) : list string :=
  let len := Z.of_nat (List.length l) in
  let from :=
    if (start <? 0)%Z then Z.max (len + start) 0 else Z.min start len in
  (firstn (Z.to_nat from) l ++ skipn (S (Z.to_nat from)) l)%list.

(** [CloudSearch.prototype.removeFetchField(fieldName)]: the element is
    spliced out when [indexOf] is [-1]. *)
Definition removeFetchField (fieldName : string) (o : opts) : opts :=
  let index := indexOf fieldName (fetches o) in
  if (index =? -1)%Z then with_fetches (splice_one index (fetches o)) o
  else o.

(** [!!x && (target[k] = x)] *)
Definition put_if (k : string) (x : value) (target : obj value) : obj value :=
  if truthy x then set k x target else target.

(** [!!x && (target[k] = x + 0)] *)
Definition put_number (k : string) (x : value) (target : obj value) : obj value :=
  if truthy x then set k (plus_zero x) target else target.

(** [CloudSearch.prototype.addSummary(fieldName, len, element, ellipsis,
    snipped, elementPrefix, elementPostfix)]: the value returned and the
    [_opts] left behind.  (For the field name [__proto__] the assignment
    gives the summary map a new prototype and no own property; the
    prototype is not part of this model.) *)
Definition addSummary (fieldName : string) (len : value)
    (element ellipsis : string) (snipped : value)
    (elementPrefix elementPostfix : string) (o : opts) : value * opts :=
  if fieldName =? "" then (JBool false, o)
  else
    let summary_ := [] in
    let summary_ := set "summary_field" (JStr fieldName) summary_ in
    let summary_ := put_number "summary_len" len summary_ in
    let summary_ := put_if "summary_element" (JStr element) summary_ in
    let summary_ := put_if "summary_ellipsis" (JStr ellipsis) summary_ in
    let summary_ := put_number "summary_snipped" snipped summary_ in
    let summary_ := put_if "summary_element_prefix" (JStr elementPrefix) summary_ in
    let summary_ := put_if "summary_element_postfix" (JStr elementPostfix) summary_ in
    (JUndefined, with_summary (set fieldName summary_ (summary o)) o).

(** [CloudSearch.prototype.addAggregate(groupKey, aggFun, range, maxGroup,
    aggFilter, aggSamplerThresHold, aggSamplerStep)].  The list of the group
    key is read through the prototype chain: for a name inherited from
    [Object.prototype] it is not an array and [push] throws.  The
    assignment before the [push] has by then made the inherited function an
    own property of the aggregate map; that map is not one [opts] holds, so
    the builder is outside this model after the throw (there a later search
    throws in [getAggregateString]). *)
Definition addAggregate (groupKey aggFun : string)
    (range maxGroup aggFilter aggSamplerThresHold aggSamplerStep : value)
    (o : opts) : completion (value * opts) :=
  if ((groupKey =? "") || (aggFun =? ""))%bool then Normal (JBool false, o)
  else
    let aggregate_ := [] in
    let aggregate_ := set "group_key" (JStr groupKey) aggregate_ in
    let aggregate_ := set "agg_fun" (JStr aggFun) aggregate_ in
    let aggregate_ := put_if "range" range aggregate_ in
    let aggregate_ := put_if "max_group" maxGroup aggregate_ in
    let aggregate_ := put_if "agg_filter" aggFilter aggregate_ in
    let aggregate_ := put_if "agg_sampler_threshold" aggSamplerThresHold aggregate_ in
    let aggregate_ := put_if "agg_sampler_step" aggSamplerStep aggregate_ in
    match get (aggregate o) groupKey with
    | Some l =>
        Normal (JUndefined,
                with_aggregate (set groupKey (l ++ [aggregate_])%list (aggregate o)) o)
    | None =>
        if inherited groupKey
        then ThrowTypeError "this._opts.aggregate[groupKey].push is not a function"
        else Normal (JUndefined,
                     with_aggregate (set groupKey [aggregate_] (aggregate o)) o)
    end.

Definition removeAggregate (groupKey : string) (o : opts) : opts :=
  with_aggregate (delete groupKey (aggregate o)) o.

(** [CloudSearch.prototype.addDistinct(key, distCount, distTimes, reserved,
    distFilter, updateTotalHit, maxItemCount, grade)]; for the key
    [__proto__] see [addSummary]. *)
Definition addDistinct (key : string) (distCount distTimes reserved : value)
    (distFilter : string) (updateTotalHit maxItemCount grade : value)
    (o : opts) : value * opts :=
  if key =? "" then (JBool false, o)
  else
    let distinct_ := [] in
    let distinct_ := set "dist_key" (JStr key) distinct_ in
    let distinct_ := put_number "dist_count" distCount distinct_ in
    let distinct_ := put_number "dist_times" distTimes distinct_ in
    let distinct_ := put_if "reserved" reserved distinct_ in
    let distinct_ := put_if "dist_filter" (JStr distFilter) distinct_ in
    let distinct_ := put_if "update_total_hit" updateTotalHit distinct_ in
    let distinct_ := put_number "max_item_count" maxItemCount distinct_ in
    let distinct_ := put_if "grade" grade distinct_ in
    (JUndefined, with_distinct (set key distinct_ (distinct o)) o).

Definition removeDistinct (distinctKey : string) (o : opts) : opts :=
  with_distinct (delete distinctKey (distinct o)) o.

Section IndexCalls.
Variable parseString : Small2.parseString_t.
Variable hmac : string -> string -> string -> string.
Variable toUpperCase : string -> string.

(** [CloudSearch.prototype.queryIndex(indexName, params)] *)
Definition queryIndex (e : CloudClient.env) (indexName : string)
    (params : option (obj value)) (b : builder)
  : builder * obj value * option CloudClient.http_request :=
  let '(c, params, r) :=
    CloudClient.callRequest parseString hmac toUpperCase e
      ("/index/" ++ indexName) params "GET" (client b) in
  (mk_builder (_opts b) c, params, r).

(** [CloudSearch.prototype.queryError(indexName, params)] *)
Definition queryError (e : CloudClient.env) (indexName : string)
    (params : option (obj value)) (b : builder)
  : builder * obj value * option CloudClient.http_request :=
  let '(c, params, r) :=
    CloudClient.callRequest parseString hmac toUpperCase e
      ("/index/error/" ++ indexName) params "GET" (client b) in
  (mk_builder (_opts b) c, params, r).
End IndexCalls.

End CloudSearch.

(** ** The statements of the specification *)

Module Spec.
Import JS.

(** *** Canonical parameters (steps b and c of the signature computation)

    "Filter: drop the [Signature] key itself and drop any key whose value is
    empty/falsy except the literal value 0, which is kept."  "Sort remaining
    keys lexicographically, rebuild the map in that order." *)
Definition kept (kv : string * value) : bool :=
  negb (fst kv =? "Signature") && (truthy (snd kv) || is_zero (snd kv)).

(** [parameters[k]], and whether the filter keeps the key [k]. *)
Definition value_of (p : obj value) (k : string) : value :=
  match get p k with Some v => v | None => JUndefined end.

Definition kept_key (p : obj value) (k : string) : bool :=
  kept (k, value_of p k).

(** The kept entries arranged by ascending key, the keys compared byte by
    byte: the map "in that order". *)
Fixpoint insert_entry (e : string * value) (l : list (string * value))
  : list (string * value) :=
  match l with
  | [] => [e]
  | x :: l' =>
      if (fst e <=? fst x)%string then e :: l else x :: insert_entry e l'
  end.

Definition canonical (params : obj value) : obj value :=
  fold_right insert_entry [] (filter kept params).

(** A key for which the order of the bytes is the order of [sort] and which
    a plain object keeps in the place it is given: ASCII text that is neither
    an array index nor [__proto__]. *)
Definition wire_name (k : string) : bool :=
  ascii_text k && negb (k =? "__proto__")
  && match array_index k with Some _ => false | None => true end.

(** *** The five substitutions (step d)

    "replace literal [*] -> [%2A], [!] -> [%21], ['] -> [%27],
    [(] -> [%28], [)] -> [%29]", all at once. *)
Definition fixup_char (c : ascii) : string :=
  if (c =? "*")%char then "%2A"
  else if (c =? "!")%char then "%21"
  else if (c =? "'")%char then "%27"
  else if (c =? "(")%char then "%28"
  else if (c =? ")")%char then "%29"
  else String c "".

Fixpoint fixup (s : string) : string :=
  match s with
  | EmptyString => EmptyString
  | String c s' => fixup_char c ++ fixup s'
  end.

Definition fixed_chars : list ascii :=
  [ "*"; "!"; "'"; "("; ")" ]%char.

(** *** The signature (steps a to f) *)
Section Signature.
Variable parseString : Small2.parseString_t.
Variable toUpperCase : string -> string.

Definition percent_encode (code : Small2.source) : string :=
  fixup (parseString code true None None).

Definition signing_clone (params : obj value) : obj value :=
  match get params "sign_mode" with
  | Some (JNum 1) => delete "items" params
  | _ => params
  end.

(** "[<HTTP_METHOD_UPPERCASE>&%2F&<percent-encode(queryStringFromStep d)>]" *)
Definition base_string (params : obj value) (method : string) : string :=
  let query := percent_encode (Small2.OfObject (canonical (signing_clone params))) in
  toUpperCase method ++ "&%2F&" ++ percent_encode (Small2.OfString query).

(** "HMAC-SHA1 over the base string using key [<secret>&]": the 20 bytes. *)
Definition mac (params : obj value) (method secret : string) : list N :=
  Utility.hmac_sha1 (Utility.bytes_of_string (secret ++ "&"))
    (Utility.bytes_of_string (base_string params method)).

(** "hex-digest result is the signature value" *)
Definition signature_as_stated (params : obj value) (method secret : string)
  : string :=
  Utility.hex (mac params method secret).

(** The same with the digest in base64. *)
Definition signature (params : obj value) (method secret : string) : string :=
  Utility.base64 (mac params method secret).
End Signature.

(** *** The sort clause

    "[getSortString()] yields [d1f1;d2f2;...] with no trailing separator";
    a direction left out counts as [-]. *)
Definition sort_string (entries : list (string * string)) : string :=
  join ";" (map (fun e => str_or (snd e) "-" ++ fst e) entries).

(** What the sort map holds after the calls, and each entry followed by the
    separator, as the loop of [getSortString] accumulates them. *)
Definition stored (entries : list (string * string)) : obj string :=
  map (fun e => (fst e, str_or (snd e) CloudSearch.SORT_DECREASE)) entries.

Definition terminated (xs : list string) : string :=
  fold_right (fun x r => x ++ ";" ++ r) "" xs.

(** A field name as the claim states it: the direction next to the name. *)
Definition sort_string_as_stated (entries : list (string * string)) : string :=
  join ";" (map (fun e => snd e ++ fst e) entries).

(** The calls [addSort(f1, d1)], [addSort(f2, d2)], ... in turn. *)
Definition add_sorts (entries : list (string * string)) (o : CloudSearch.opts)
  : CloudSearch.opts :=
  fold_left (fun o e => snd (CloudSearch.addSort (fst e) (snd e) o)) entries o.

(** A field name that is kept as an ordinary named property: not empty, not
    an array index, not [__proto__]. *)
Definition plain_name (f : string) : bool :=
  negb (f =? "") && negb (f =? "__proto__")
  && match array_index f with Some _ => false | None => true end.

(** *** Disabled functions and QP names *)

(** What a call leaves behind: a call that throws leaves the state as it
    found it. *)
Definition left_by {A : Type} (c : completion A) (before : A) : A :=
  match c with
  | Normal a => a
  | ThrowTypeError _ => before
  end.

Definition stored_functions (o : CloudSearch.opts) (name : string) : list string :=
  match get (CloudSearch.functions o) name with
  | Some l => l
  | None => []
  end.

Definition add_disabled (calls : list (string * CloudSearch.names))
    (o : CloudSearch.opts) : CloudSearch.opts :=
  fold_left
    (fun o c => left_by (CloudSearch.addDisabledFunction (fst c) (snd c) o) o)
    calls o.

Definition add_qp_names (calls : list CloudSearch.names) (o : CloudSearch.opts)
  : CloudSearch.opts :=
  fold_left (fun o c => CloudSearch.addQPName c o) calls o.

(** *** Scroll calls *)

(** The wire parameters of a search that a scroll call leaves out. *)
Definition search_only_keys : list string :=
  [ "formula_name"; "first_formula_name"; "summary"; "qp"; "disable" ].

(** The clauses of a search that a scroll call leaves out. *)
Definition search_only_clauses : list string :=
  [ "sort"; "aggregate"; "distinct" ].

(** The fields [callRequest] writes into the param map. *)
Definition auth_keys : list string :=
  [ "Version"; "AccessKeyId"; "SignatureMethod"; "SignatureVersion";
    "SignatureNonce"; "Timestamp"; "Signature" ].

(** A builder on which a formula name, a sort rule and QP names were set
    before the scroll TTL and the scroll id. *)
Definition scroll_builder : CloudSearch.builder :=
  CloudSearch.mk_builder
    (CloudSearch.setScrollId (JStr "abc")
       (CloudSearch.setScroll (JStr "1m")
          (CloudSearch.with_QPName ["qp1"]
             (CloudSearch.setFormulaName "f1"
                (snd (CloudSearch.addSort "price" "+" CloudSearch.default_opts))))))
    (CloudClient.CloudClient CloudClient.no_opts).

(** What the code relies on when it calls [s2.goneEmpty]: a string that is
    not empty comes back as it is, and an array comes back as it is or as a
    falsy value. *)
Definition goneEmpty_contract (goneEmpty : Small2.goneEmpty_t) : Prop :=
  (forall s, s <> "" -> goneEmpty (JStr s) = JStr s)
  /\ (forall l, goneEmpty (JArr l) = JArr l \/ truthy (goneEmpty (JArr l)) = false).

(** *** Further statements *)

(** The characters a percent-encoded string is made of: letters, digits and
    [- _ . ~ %]. *)
Definition url_safe (c : ascii) : bool :=
  Small2.in_range 65 90 c || Small2.in_range 97 122 c || Small2.in_range 48 57 c
  || existsb (Ascii.eqb c) (list_ascii_of_string "-_.~%").

Fixpoint all_chars (f : ascii -> bool) (s : string) : bool :=
  match s with
  | EmptyString => true
  | String c s' => f c && all_chars f s'
  end.

Definition hex_value (c : ascii) : option N :=
  let n := N_of_ascii c in
  if Small2.in_range 48 57 c then Some (n - 48)%N
  else if Small2.in_range 65 70 c then Some (n - 55)%N
  else if Small2.in_range 97 102 c then Some (n - 87)%N
  else None.

(** Reading a percent-encoded string back: [%XX] is the byte [XX], every
    other byte is itself; a [%] without two hexadecimal digits is an
    error. *)
Fixpoint percent_decode (s : string) : option string :=
  match s with
  | EmptyString => Some EmptyString
  | String c rest =>
      if (c =? "%")%char then
        match rest with
        | String h (String l rest') =>
            match hex_value h, hex_value l, percent_decode rest' with
            | Some a, Some b, Some d => Some (String (ascii_of_N (16 * a + b)) d)
            | _, _, _ => None
            end
        | _ => None
        end
      else
        match percent_decode rest with
        | Some d => Some (String c d)
        | None => None
        end
  end.

(** What [encodeURIComponent] makes of one byte. *)
Definition encode_char (c : ascii) : string :=
  if Small2.unreserved c then String c "" else Small2.percent_byte c.

(** The calls [addFilter(f1, op1)], [addFilter(f2, op2)], ... in turn, and
    the expression they build on a builder without a filter. *)
Definition add_filters (calls : list (string * string)) (o : CloudSearch.opts)
  : CloudSearch.opts :=
  fold_left (fun o c => CloudSearch.addFilter (fst c) (snd c) o) calls o.

Definition filter_expr (first : string) (more : list (string * string)) : string :=
  fold_left (fun acc c => acc ++ " " ++ str_or (snd c) "AND" ++ " " ++ fst c)
    more first.

Definition nonempty_filter (c : string * string) : bool := negb (fst c =? "").

(** [s2.goneEmpty] on the empty string: a falsy value. *)
Definition goneEmpty_drops_empty (goneEmpty : Small2.goneEmpty_t) : Prop :=
  truthy (goneEmpty (JStr "")) = false.

(** The keys a call in mode [type] writes after the custom parameters. *)
Definition mode_keys (type : string) : list string :=
  if type =? "search"
  then [ "fetch_fields"; "formula_name"; "first_formula_name"; "summary"; "qp";
         "disable" ]
  else if type =? "scroll"
  then [ "fetch_fields"; "scroll"; "scroll_id"; "search_type" ]
  else [ "fetch_fields" ].

(** Every stored summary and distinct rule names the key it is stored
    under. *)
Definition rules_name_their_key (o : CloudSearch.opts) : Prop :=
  (forall k rule, get (CloudSearch.summary o) k = Some rule ->
                  get rule "summary_field" = Some (JStr k))
  /\ (forall k rule, get (CloudSearch.distinct o) k = Some rule ->
                     get rule "dist_key" = Some (JStr k)).

(** The aggregate rules stored for a group key. *)
Definition stored_aggregates (o : CloudSearch.opts) (groupKey : string)
  : list (obj value) :=
  match get (CloudSearch.aggregate o) groupKey with
  | Some l => l
  | None => []
  end.

(** A clause that is present when its serialized form is not empty. *)
Definition opt_clause (s : string) : option value :=
  if s =? "" then None else Some (JStr s).

End Spec.

(** ** Facts about strings, sorting and objects *)

Module Facts.
Import JS.

(** *** The digests of [Utility] on the test vectors

    SHA-1 of [abc] (FIPS 180-4), HMAC-SHA1 of the second test case of
    RFC 2202, and the example of the documentation of [utility.hmac]. *)
Lemma sha1_abc :
  Utility.hex (Utility.sha1 (Utility.bytes_of_string "abc"))
  = "a9993e364706816aba3e25717850c26c9cd0d89d".
Proof. vm_compute. reflexivity. Qed.

Lemma hmac_sha1_rfc2202 :
  Utility.hex
    (Utility.hmac_sha1 (Utility.bytes_of_string "Jefe")
       (Utility.bytes_of_string "what do ya want for nothing?"))
  = "effcdf6ae5eb2fa2d27416d5f184df9c259a7c79".
Proof. vm_compute. reflexivity. Qed.

Lemma hmac_documented_example :
  Utility.hmac "sha1" "I am a key" "hello world"
  = "pO6J0LKDxRRkvSECSEdxwKx84L0=".
Proof. vm_compute. reflexivity. Qed.

Lemma append_nil_r (s : string) : s ++ "" = s.
Proof. induction s as [|c s IH]; simpl; [reflexivity | now rewrite IH]. Qed.

Lemma append_assoc (a b c : string) : (a ++ b) ++ c = a ++ b ++ c.
Proof. induction a as [|x a IH]; simpl; [reflexivity | now rewrite IH]. Qed.

Lemma ascii_compare_refl (a : ascii) : Ascii.compare a a = Eq.
Proof. unfold Ascii.compare. apply N.compare_refl. Qed.

Lemma string_compare_refl (s : string) : String.compare s s = Eq.
Proof.
  induction s as [|c s IH]; simpl; [reflexivity|].
  now rewrite ascii_compare_refl.
Qed.

(** [String.compare] is a lexicographic order: [Lt] composes with [Lt] and
    [Eq]. *)
Lemma string_compare_trans (c : comparison) :
  forall s1 s2 s3,
    String.compare s1 s2 = c -> String.compare s2 s3 = c ->
    String.compare s1 s3 = c.
Proof.
  induction s1 as [|a1 s1 IH]; intros [|a2 s2] [|a3 s3]; simpl;
    try congruence.
  unfold Ascii.compare.
  destruct (N.compare_spec (N_of_ascii a1) (N_of_ascii a2)) as [E12|L12|G12];
    destruct (N.compare_spec (N_of_ascii a2) (N_of_ascii a3)) as [E23|L23|G23];
    intros H1 H2; subst; try congruence.
  - rewrite E12, E23, N.compare_refl. eapply IH; eauto.
  - rewrite E12. now apply N.compare_lt_iff in L23 as ->.
  - rewrite E12. now apply N.compare_gt_iff in G23 as ->.
  - rewrite <- E23. now apply N.compare_lt_iff in L12 as ->.
  - assert (L : (N_of_ascii a1 < N_of_ascii a3)%N) by lia.
    now apply N.compare_lt_iff in L as ->.
  - rewrite <- E23. now apply N.compare_gt_iff in G12 as ->.
  - assert (L : (N_of_ascii a3 < N_of_ascii a1)%N) by lia.
    now apply N.compare_gt_iff in L as ->.
Qed.

(** *** The order of code units *)

Lemma units_compare_refl (a : list N) : units_compare a a = Eq.
Proof.
  induction a as [|x a IH]; simpl; [reflexivity|].
  now rewrite N.compare_refl.
Qed.

Lemma units_compare_eq (a b : list N) : units_compare a b = Eq -> a = b.
Proof.
  revert b. induction a as [|x a IH]; intros [|y b]; simpl;
    try discriminate; [reflexivity|].
  destruct (N.compare_spec x y) as [E|L|G]; try discriminate.
  intros H. subst. f_equal. now apply IH.
Qed.

Lemma units_compare_antisym (a b : list N) :
  units_compare a b = CompOpp (units_compare b a).
Proof.
  revert b. induction a as [|x a IH]; intros [|y b]; simpl; try reflexivity.
  rewrite (N.compare_antisym y x).
  destruct (y ?= x)%N; simpl; [apply IH | reflexivity | reflexivity].
Qed.

Lemma units_compare_lt_trans (a b c : list N) :
  units_compare a b = Lt -> units_compare b c = Lt -> units_compare a c = Lt.
Proof.
  revert b c. induction a as [|x a IH]; intros [|y b] [|z c]; simpl;
    try congruence.
  destruct (N.compare_spec x y) as [E12|L12|G12];
    destruct (N.compare_spec y z) as [E23|L23|G23];
    intros H1 H2; subst; try congruence.
  - rewrite N.compare_refl. eapply IH; eauto.
  - now apply N.compare_lt_iff in L23 as ->.
  - now apply N.compare_lt_iff in L12 as ->.
  - assert (L : (x < z)%N) by lia.
    now apply N.compare_lt_iff in L as ->.
Qed.

Lemma compare_refl (s : string) : compare s s = Eq.
Proof.
  unfold compare. rewrite units_compare_refl. apply string_compare_refl.
Qed.

Lemma compare_eq (x y : string) : compare x y = Eq -> x = y.
Proof.
  unfold compare.
  destruct (units_compare (code_units x) (code_units y)); try discriminate.
  apply String.compare_eq_iff.
Qed.

Lemma compare_antisym (x y : string) : compare x y = CompOpp (compare y x).
Proof.
  unfold compare.
  rewrite (units_compare_antisym (code_units x) (code_units y)).
  destruct (units_compare (code_units y) (code_units x)); simpl;
    [apply String.compare_antisym | reflexivity | reflexivity].
Qed.

Lemma compare_lt_trans (x y z : string) :
  compare x y = Lt -> compare y z = Lt -> compare x z = Lt.
Proof.
  unfold compare.
  destruct (units_compare (code_units x) (code_units y)) eqn:U12;
    try discriminate;
    destruct (units_compare (code_units y) (code_units z)) eqn:U23;
    try discriminate; intros H1 H2.
  - apply units_compare_eq in U12, U23. rewrite U12, U23.
    rewrite units_compare_refl.
    exact (string_compare_trans Lt _ _ _ H1 H2).
  - apply units_compare_eq in U12. rewrite U12. now rewrite U23.
  - apply units_compare_eq in U23. rewrite <- U23. now rewrite U12.
  - now rewrite (units_compare_lt_trans _ _ _ U12 U23).
Qed.

Lemma leb_refl (s : string) : leb s s = true.
Proof. unfold leb. now rewrite compare_refl. Qed.

Lemma leb_trans (s1 s2 s3 : string) :
  leb s1 s2 = true -> leb s2 s3 = true -> leb s1 s3 = true.
Proof.
  unfold leb.
  destruct (compare s1 s2) eqn:E12; try discriminate;
    destruct (compare s2 s3) eqn:E23; try discriminate; intros _ _.
  - apply compare_eq in E12, E23. subst. now rewrite compare_refl.
  - apply compare_eq in E12. subst. now rewrite E23.
  - apply compare_eq in E23. subst. now rewrite E12.
  - now rewrite (compare_lt_trans _ _ _ E12 E23).
Qed.

Lemma leb_false_le (x y : string) : leb x y = false -> leb y x = true.
Proof.
  unfold leb. rewrite (compare_antisym y x).
  destruct (compare x y); simpl; congruence.
Qed.

Lemma leb_antisym (x y : string) : leb x y = true -> leb y x = true -> x = y.
Proof.
  unfold leb. rewrite (compare_antisym y x).
  destruct (compare x y) eqn:E; simpl; try discriminate.
  intros _ _. now apply compare_eq.
Qed.

(** On ASCII text the code units are the bytes, and the order is the
    byte-wise one. *)
Lemma code_units_ascii (s : string) :
  ascii_text s = true ->
  code_units s = map N_of_ascii (list_ascii_of_string s).
Proof.
  induction s as [|c s IH]; [reflexivity|].
  cbn [ascii_text]. intros H. apply andb_prop in H as [Hc Hs].
  cbn [code_units list_ascii_of_string map].
  assert (L : (N_of_ascii c <? 192)%N = true).
  { apply N.ltb_lt. apply N.ltb_lt in Hc. lia. }
  rewrite L. f_equal. now apply IH.
Qed.

Lemma units_compare_bytes (x y : string) :
  units_compare (map N_of_ascii (list_ascii_of_string x))
                (map N_of_ascii (list_ascii_of_string y))
  = String.compare x y.
Proof.
  revert y. induction x as [|a x IH]; intros [|b y]; simpl; try reflexivity.
  unfold Ascii.compare. rewrite IH. reflexivity.
Qed.

Lemma compare_ascii (x y : string) :
  ascii_text x = true -> ascii_text y = true ->
  compare x y = String.compare x y.
Proof.
  intros Hx Hy. unfold compare.
  rewrite (code_units_ascii _ Hx), (code_units_ascii _ Hy).
  rewrite units_compare_bytes. now destruct (String.compare x y).
Qed.

Lemma leb_ascii (x y : string) :
  ascii_text x = true -> ascii_text y = true ->
  leb x y = (x <=? y)%string.
Proof.
  intros Hx Hy. unfold leb, String.leb. now rewrite compare_ascii.
Qed.

(** *** [sort] yields the ordered arrangement of its argument *)

Lemma insert_sorted_perm (x : string) (l : list string) :
  Permutation (x :: l) (insert_sorted x l).
Proof.
  induction l as [|y l IH]; simpl; [reflexivity|].
  destruct (leb x y); [reflexivity|].
  rewrite perm_swap. now constructor.
Qed.

Lemma sort_perm (l : list string) : Permutation l (sort l).
Proof.
  induction l as [|x l IH]; simpl; [constructor|].
  rewrite <- insert_sorted_perm. now constructor.
Qed.

Lemma insert_sorted_sorted (x : string) (l : list string) :
  StronglySorted le l -> StronglySorted le (insert_sorted x l).
Proof.
  induction 1 as [|y l Hs IH Hall]; simpl.
  - repeat constructor.
  - destruct (leb x y) eqn:E.
    + constructor; [now constructor|].
      constructor; [exact E|].
      eapply Forall_impl; [|exact Hall].
      intros z Hz. eapply leb_trans; eauto.
    + constructor; [exact IH|].
      apply leb_false_le in E.
      eapply Permutation_Forall; [apply insert_sorted_perm|].
      now constructor.
Qed.

Lemma sort_sorted (l : list string) : StronglySorted le (sort l).
Proof.
  induction l as [|x l IH]; simpl; [constructor|].
  now apply insert_sorted_sorted.
Qed.

Lemma sort_In (l : list string) (x : string) : In x (sort l) <-> In x l.
Proof.
  split; apply Permutation_in; [symmetry|]; apply sort_perm.
Qed.

Lemma insert_sorted_head (x : string) (l : list string) :
  Forall (le x) l -> insert_sorted x l = x :: l.
Proof.
  destruct 1 as [|y l H _]; simpl; [reflexivity|].
  unfold le in H. now rewrite H.
Qed.

(** Filtering commutes with sorting. *)
Lemma filter_insert_sorted (f : string -> bool) (x : string) (l : list string) :
  StronglySorted le l ->
  filter f (insert_sorted x l)
  = if f x then insert_sorted x (filter f l) else filter f l.
Proof.
  induction 1 as [|y l Hs IH Hall]; simpl.
  - now destruct (f x).
  - destruct (leb x y) eqn:E; simpl.
    + destruct (f x) eqn:Fx; [|reflexivity].
      f_equal. symmetry.
      assert (Hx : Forall (le x) (y :: l)).
      { constructor; [exact E|].
        eapply Forall_impl; [|exact Hall].
        intros z Hz. eapply leb_trans; eauto. }
      change (insert_sorted x (filter f (y :: l)) = x :: filter f (y :: l)).
      apply insert_sorted_head.
      apply Forall_forall. intros z Hz. apply filter_In in Hz.
      rewrite Forall_forall in Hx. now apply Hx.
    + rewrite IH. destruct (f y) eqn:Fy; destruct (f x) eqn:Fx; simpl;
        try rewrite E; reflexivity.
Qed.

Lemma filter_sort (f : string -> bool) (l : list string) :
  filter f (sort l) = sort (filter f l).
Proof.
  induction l as [|x l IH]; simpl; [reflexivity|].
  rewrite filter_insert_sorted by apply sort_sorted.
  rewrite IH. now destruct (f x).
Qed.

(** *** Reading and writing properties *)

Section ObjectFacts.
Context {V : Type}.
Implicit Types (o : obj V) (k : string) (v : V).

Lemma get_None o k : get o k = None <-> ~ In k (keys o).
Proof.
  induction o as [|[k' v'] o IH]; simpl; [tauto|].
  destruct (String.eqb_spec k' k) as [->|N].
  - split; [discriminate | intros H; exfalso; apply H; now left].
  - rewrite IH. split; [intros H [E|I]; [congruence | tauto] | tauto].
Qed.

Lemma has_false o k : has o k = false <-> ~ In k (keys o).
Proof.
  unfold has. rewrite <- get_None. destruct (get o k); split; congruence.
Qed.

Lemma has_true o k : has o k = true <-> In k (keys o).
Proof.
  destruct (has o k) eqn:E.
  - split; [intros _|reflexivity].
    destruct (in_dec string_dec k (keys o)) as [I|N]; [exact I|].
    apply has_false in N. congruence.
  - apply has_false in E. split; [discriminate | tauto].
Qed.

Lemma get_In o k v : get o k = Some v -> In (k, v) o.
Proof.
  induction o as [|[k' v'] o IH]; simpl; [discriminate|].
  destruct (String.eqb_spec k' k) as [->|N].
  - intros [= ->]. now left.
  - intros H. right. now apply IH.
Qed.

Lemma In_get o k v : NoDup (keys o) -> In (k, v) o -> get o k = Some v.
Proof.
  induction o as [|[k' v'] o IH]; simpl; [tauto|].
  intros ND [E|I].
  - injection E as -> ->. now rewrite String.eqb_refl.
  - inversion ND as [|? ? Hn ND']; subst.
    destruct (String.eqb_spec k' k) as [->|N]; [|now apply IH].
    exfalso. apply Hn. now apply (in_map fst) in I.
Qed.

Lemma get_replace o k v k' :
  get (replace k v o) k'
  = if k =? k' then match get o k with Some _ => Some v | None => None end
    else get o k'.
Proof.
  induction o as [|[k0 v0] o IH]; simpl.
  - now destruct (k =? k').
  - destruct (String.eqb_spec k0 k) as [->|N]; simpl.
    + now destruct (String.eqb_spec k k').
    + rewrite IH. destruct (String.eqb_spec k0 k') as [->|N'].
      * destruct (String.eqb_spec k k'); [congruence | reflexivity].
      * reflexivity.
Qed.

Lemma get_insert_index o n k v k' :
  get o k = None ->
  get (insert_index n k v o) k' = if k =? k' then Some v else get o k'.
Proof.
  induction o as [|[k0 v0] o IH]; simpl; [reflexivity|].
  destruct (String.eqb_spec k0 k) as [->|N]; [discriminate|]. intros H.
  destruct (array_index k0) as [n0|]; [destruct (n0 <? n)%N|]; simpl;
    try reflexivity.
  rewrite (IH H).
  destruct (String.eqb_spec k0 k') as [->|N'];
    [destruct (String.eqb_spec k k'); [congruence | reflexivity]
    | reflexivity].
Qed.

Lemma get_app o o' k :
  get (o ++ o')%list k
  = match get o k with Some x => Some x | None => get o' k end.
Proof.
  induction o as [|[k0 v0] o IH]; simpl; [reflexivity|].
  now destruct (k0 =? k).
Qed.

Lemma set_proto o v : set "__proto__" v o = o.
Proof. reflexivity. Qed.

(** After [o[k] = v], [o[k]] is [v] and every other property is as it
    was. *)
Lemma get_set o k v k' :
  k <> "__proto__" ->
  get (set k v o) k' = if k =? k' then Some v else get o k'.
Proof.
  intros Hk. unfold set.
  destruct (String.eqb_spec k "__proto__") as [E|_]; [contradiction|].
  unfold has. destruct (get o k) eqn:G.
  - rewrite get_replace, G. reflexivity.
  - destruct (array_index k) as [n|].
    + now apply get_insert_index.
    + rewrite get_app. simpl.
      destruct (String.eqb_spec k k') as [<-|N].
      * now rewrite G.
      * now destruct (get o k').
Qed.

Lemma get_set_other o k v k' : k <> k' -> get (set k v o) k' = get o k'.
Proof.
  intros N. destruct (String.eqb_spec k "__proto__") as [->|P];
    [reflexivity|].
  rewrite get_set by assumption.
  destruct (String.eqb_spec k k'); [contradiction | reflexivity].
Qed.

(** A new property whose name is not an array index is visited last. *)
Lemma set_new_named o k v :
  k <> "__proto__" -> array_index k = None -> ~ In k (keys o) ->
  set k v o = (o ++ [(k, v)])%list.
Proof.
  unfold set. intros P A N.
  apply String.eqb_neq in P. rewrite P.
  apply has_false in N. now rewrite N, A.
Qed.

Lemma set_plain_new o k v :
  Spec.plain_name k = true -> ~ In k (keys o) ->
  set k v o = (o ++ [(k, v)])%list.
Proof.
  unfold Spec.plain_name. intros P N.
  apply andb_prop in P as [P Pi]. apply andb_prop in P as [_ P].
  apply negb_true_iff, String.eqb_neq in P.
  apply set_new_named; try assumption.
  now destruct (array_index k).
Qed.

(** Properties written one after the other: the last value written under a
    key is the one that is read. *)
Lemma get_fold_set (f : string -> V) (l : list string) : forall o k,
  k <> "__proto__" ->
  get (fold_left (fun m x => set x (f x) m) l o) k
  = if existsb (String.eqb k) l then Some (f k) else get o k.
Proof.
  induction l as [|x l IH]; intros o k P; [reflexivity|].
  cbn [fold_left existsb]. rewrite IH by assumption.
  destruct (existsb (String.eqb k) l); [now rewrite orb_true_r|].
  rewrite orb_false_r.
  destruct (String.eqb_spec k x) as [->|N].
  - rewrite get_set by assumption. now rewrite String.eqb_refl.
  - apply get_set_other. congruence.
Qed.

(** New properties with names that are not array indices are visited in the
    order they were written. *)
Lemma fold_set_named (f : string -> V) (l : list string) : forall o,
  NoDup l ->
  (forall k, In k l ->
     k <> "__proto__" /\ array_index k = None /\ ~ In k (keys o)) ->
  fold_left (fun m x => set x (f x) m) l o
  = (o ++ map (fun x => (x, f x)) l)%list.
Proof.
  induction l as [|x l IH]; intros o ND H.
  - simpl. now rewrite app_nil_r.
  - inversion ND as [|? ? Hx ND']; subst.
    destruct (H x (or_introl eq_refl)) as [P [A N]].
    cbn [fold_left map]. rewrite set_new_named by assumption.
    rewrite IH; [now rewrite <- app_assoc | assumption |].
    intros k I. destruct (H k (or_intror I)) as [Pk [Ak Nk]].
    repeat split; try assumption.
    unfold keys. rewrite map_app. intros J. apply in_app_or in J as [J|J].
    + now apply Nk.
    + simpl in J. destruct J as [<-|[]]. contradiction.
Qed.

Lemma replace_app o1 o2 k v v0 :
  ~ In k (keys o1) ->
  replace k v (o1 ++ (k, v0) :: o2)%list = (o1 ++ (k, v) :: o2)%list.
Proof.
  induction o1 as [|[k1 v1] o1 IH]; simpl; intros N.
  - now rewrite String.eqb_refl.
  - destruct (String.eqb_spec k1 k) as [->|N1]; [tauto|].
    rewrite IH; tauto.
Qed.

(** Writing a property that exists keeps its place. *)
Lemma set_existing o1 o2 k v v0 :
  k <> "__proto__" -> ~ In k (keys o1) ->
  set k v (o1 ++ (k, v0) :: o2)%list = (o1 ++ (k, v) :: o2)%list.
Proof.
  intros P N. unfold set.
  destruct (String.eqb_spec k "__proto__"); [contradiction|].
  assert (H : has (o1 ++ (k, v0) :: o2)%list k = true).
  { apply has_true. unfold keys. rewrite map_app. apply in_or_app.
    right. now left. }
  rewrite H. now apply replace_app.
Qed.

Lemma keys_delete o k : keys (delete k o) = filter (fun x => negb (x =? k)) (keys o).
Proof.
  induction o as [|[k0 v0] o IH]; simpl; [reflexivity|].
  destruct (k0 =? k); simpl; now rewrite IH.
Qed.

Lemma get_delete o k k' :
  get (delete k o) k' = if k =? k' then None else get o k'.
Proof.
  induction o as [|[k0 v0] o IH]; simpl.
  - now destruct (k =? k').
  - destruct (String.eqb_spec k0 k) as [->|N]; simpl.
    + rewrite IH. now destruct (k =? k').
    + rewrite IH. destruct (String.eqb_spec k0 k') as [->|N'];
        [destruct (String.eqb_spec k k'); [congruence | reflexivity]
        | reflexivity].
Qed.

Lemma NoDup_keys_delete o k : NoDup (keys o) -> NoDup (keys (delete k o)).
Proof. rewrite keys_delete. apply NoDup_filter. Qed.
End ObjectFacts.

End Facts.

(** ** Properties of the query builder *)

Module CloudSearchProps.
Import JS Facts CloudSearch.

(** *** [getSortString] *)

Lemma append_eq_nil (a b : string) : a ++ b = "" -> b = "".
Proof. destruct a; simpl; [tauto | discriminate]. Qed.

Lemma strip_trailing_app (c : ascii) (a b : string) :
  b <> "" ->
  CloudClient.strip_trailing c (a ++ b) = a ++ CloudClient.strip_trailing c b.
Proof.
  intros Hb. induction a as [|x a IH]; [reflexivity|].
  simpl. destruct (a ++ b) eqn:E.
  - apply append_eq_nil in E. contradiction.
  - now rewrite <- IH.
Qed.

Lemma strip_semicolon_terminated (xs : list string) :
  strip_semicolon (Spec.terminated xs) = join ";" xs.
Proof.
  unfold strip_semicolon, join.
  induction xs as [|x xs IH]; [reflexivity|].
  cbn [Spec.terminated fold_right String.concat].
  destruct xs as [|y xs].
  - cbn [fold_right]. rewrite strip_trailing_app by discriminate.
    cbn. apply append_nil_r.
  - rewrite strip_trailing_app.
    + rewrite strip_trailing_app.
      * fold (Spec.terminated (y :: xs)). now rewrite IH.
      * cbn [fold_right]. destruct y; discriminate.
    + cbn [fold_right]. discriminate.
Qed.

Lemma sort_loop (l : obj string) (acc : string) :
  fold_left (fun acc kv => acc ++ snd kv ++ fst kv ++ ";") l acc
  = acc ++ Spec.terminated (map (fun kv => snd kv ++ fst kv) l).
Proof.
  revert acc. induction l as [|[k v] l IH]; intros acc; simpl.
  - now rewrite append_nil_r.
  - rewrite IH. now rewrite !append_assoc.
Qed.

(** [getSortString] joins the stored rules in the order the sort map
    enumerates them. *)
Lemma getSortString_join (o : opts) :
  getSortString o = join ";" (map (fun kv => snd kv ++ fst kv) (sort o)).
Proof.
  unfold getSortString, getSort. rewrite sort_loop. simpl.
  apply strip_semicolon_terminated.
Qed.

Lemma keys_stored entries : keys (Spec.stored entries) = map fst entries.
Proof. unfold keys, Spec.stored. rewrite map_map. reflexivity. Qed.

Lemma sort_with_sort x o : sort (with_sort x o) = x.
Proof. reflexivity. Qed.

Lemma plain_name_nonempty f : Spec.plain_name f = true -> f <> "".
Proof.
  unfold Spec.plain_name. intros H ->. discriminate.
Qed.

Lemma plain_name_not_proto f : Spec.plain_name f = true -> f <> "__proto__".
Proof.
  unfold Spec.plain_name. intros H ->. discriminate.
Qed.

Lemma addSort_plain f d o :
  Spec.plain_name f = true ->
  snd (addSort f d o) = with_sort (set f (str_or d SORT_DECREASE) (sort o)) o.
Proof.
  intros P. unfold addSort.
  destruct (String.eqb_spec f "") as [E|_]; [|reflexivity].
  now apply plain_name_nonempty in P.
Qed.

(** New plain fields are appended to the sort map in the order of the
    calls. *)
Lemma sort_add_sorts entries : forall o,
  NoDup (map fst entries) ->
  Forall (fun e => Spec.plain_name (fst e) = true) entries ->
  (forall f, In f (map fst entries) -> ~ In f (keys (sort o))) ->
  sort (Spec.add_sorts entries o) = (sort o ++ Spec.stored entries)%list.
Proof.
  induction entries as [|[f d] entries IH]; intros o ND P Fresh.
  - simpl. now rewrite app_nil_r.
  - inversion ND as [|? ? Hf ND']; subst.
    inversion P as [|? ? Pf P']; subst. simpl in Pf.
    cbn [Spec.add_sorts fold_left fst snd].
    fold (Spec.add_sorts entries (snd (addSort f d o))).
    rewrite addSort_plain by assumption.
    assert (Hnew : ~ In f (keys (sort o))) by (apply Fresh; now left).
    rewrite IH; try assumption.
    + rewrite sort_with_sort, set_plain_new by assumption.
      rewrite <- app_assoc. reflexivity.
    + intros g Hg. rewrite sort_with_sort, set_plain_new by assumption.
      unfold keys. rewrite map_app. intros I. apply in_app_or in I as [I|I].
      * apply (Fresh g); [now right | exact I].
      * simpl in I. destruct I as [<-|[]]. contradiction.
Qed.

Lemma sort_string_stored entries :
  join ";" (map (fun kv => snd kv ++ fst kv) (Spec.stored entries))
  = Spec.sort_string entries.
Proof.
  unfold Spec.stored, Spec.sort_string. rewrite map_map. reflexivity.
Qed.




(** *** [setHits] *)

(** C10.  After [setHits(h)] the stored hit count is [h] when [h] is truthy
    and 20 when it is falsy; [setHits(0)] stores 20, and [getHits()] is never
    0 right after a [setHits]. *)
Theorem setHits_stores (h : value) (o : opts) :
  getHits (setHits h o) = (if truthy h then h else JNum 20)
  /\ getHits (setHits (JNum 0) o) = JNum 20
  /\ getHits (setHits h o) <> JNum 0.
Proof.
  unfold getHits, setHits. cbn [hits with_hits truthy Z.eqb negb].
  repeat split.
  destruct (truthy h) eqn:T; [|discriminate].
  intros ->. discriminate.
Qed.

(** *** [addDisabledFunction] and [addQPName] *)

Lemma addQPName_keeps (q : names) (o : opts) :
  getQPName (addQPName q o) = getQPName o.
Proof. reflexivity. Qed.

Lemma inherited_not_proto (f : string) : inherited f = false -> f <> "__proto__".
Proof. intros H ->. discriminate. Qed.

Lemma addDisabledFunction_keeps (f : string) (d : names) (o : opts) (name : string) :
  Spec.stored_functions (Spec.left_by (addDisabledFunction f d o) o) name
  = Spec.stored_functions o name.
Proof.
  unfold addDisabledFunction.
  destruct (names_truthy d); [|reflexivity]. cbn [negb].
  destruct (get (functions o) f) as [l|] eqn:G.
  - cbn [Spec.left_by]. unfold Spec.stored_functions. cbn [functions with_functions].
    destruct (String.eqb_spec f "__proto__") as [->|P]; [reflexivity|].
    rewrite get_set by assumption.
    destruct (String.eqb_spec f name) as [<-|N]; [now rewrite G | reflexivity].
  - destruct (inherited f) eqn:I; [reflexivity|].
    cbn [Spec.left_by]. unfold Spec.stored_functions. cbn [functions with_functions].
    rewrite get_set by now apply inherited_not_proto.
    destruct (String.eqb_spec f name) as [<-|N]; [now rewrite G | reflexivity].
Qed.

(** C9.  The list stored for a function name has the same elements after
    any number of calls of [addDisabledFunction] as before them, and so has
    the stored [QPName] list after any number of calls of [addQPName]: the
    array that [concat] returns is dropped, nothing accumulates. *)
Theorem disabled_and_qp_never_accumulate :
  (forall (calls : list (string * names)) (o : opts) (name : string),
     Spec.stored_functions (Spec.add_disabled calls o) name
     = Spec.stored_functions o name)
  /\ (forall (calls : list names) (o : opts),
        getQPName (Spec.add_qp_names calls o) = getQPName o).
Proof.
  split.
  - induction calls as [|[f d] calls IH]; intros o name; [reflexivity|].
    cbn [Spec.add_disabled fold_left fst snd].
    fold (Spec.add_disabled calls (Spec.left_by (addDisabledFunction f d o) o)).
    rewrite IH. apply addDisabledFunction_keeps.
  - induction calls as [|q calls IH]; intros o; [reflexivity|].
    cbn [Spec.add_qp_names fold_left].
    fold (Spec.add_qp_names calls (addQPName q o)).
    rewrite IH. apply addQPName_keeps.
Qed.

(** *** [addIndex] and [addFetchFields] *)

(** C4 fails on the code.  [addIndex] with a string appends it whether or
    not it is stored already and whether or not it is empty; with a list that
    is not empty it throws and stores nothing. *)
Theorem addIndex_appends_without_check :
  (forall (s : string) (o : opts),
     addIndex (One s) o = Normal (with_indexes (indexes o ++ [s])%list o))
  /\ (forall (e : string) (l : list string) (o : opts),
        addIndex (Many (e :: l)) o
        = ThrowTypeError "Cannot read property 'indexOf' of undefined")
  /\ (o <- addIndex (One "idx1") default_opts ;;
      o <- addIndex (One "idx1") o ;; Normal (getSearchIndexes o))
     = Normal ["idx1"; "idx1"]
  /\ (o <- addIndex (One "") default_opts ;; Normal (getSearchIndexes o))
     = Normal [""].
Proof. repeat split. Qed.

(** C3 fails on the code.  [addFetchFields] throws a [TypeError] for every
    string and for every list that is not empty, and so does [addIndex] for
    every list that is not empty. *)
Theorem addFetchFields_throws :
  (forall (s : string) (o : opts),
     addFetchFields (One s) o
     = ThrowTypeError "this._opts.indexOf is not a function")
  /\ (forall (e : string) (l : list string) (o : opts),
        addFetchFields (Many (e :: l)) o
        = ThrowTypeError "Cannot read property 'indexOf' of undefined")
  /\ (forall (e : string) (l : list string) (o : opts),
        exists msg, addIndex (Many (e :: l)) o = ThrowTypeError msg).
Proof. repeat split. now eexists. Qed.

End CloudSearchProps.

(** ** Properties of the transport client *)

Module CloudClientProps.
Import JS Facts CloudClient.

(** *** [_percentEncode] *)

(** The five replacements one after the other amount to replacing the five
    characters at once. *)
Lemma replacements_fixup (s : string) :
  replace_all ")" "%29"
    (replace_all "(" "%28"
       (replace_all "'" "%27"
          (replace_all "!" "%21" (replace_all "*" "%2A" s))))
  = Spec.fixup s.
Proof.
  induction s as [|x s IH]; [reflexivity|].
  cbn [Spec.fixup]. unfold Spec.fixup_char. cbn [replace_all].
  destruct (Ascii.eqb_spec x "*") as [->|N1]; [cbn; now rewrite IH|].
  cbn [replace_all].
  destruct (Ascii.eqb_spec x "!") as [->|N2]; [cbn; now rewrite IH|].
  cbn [replace_all].
  destruct (Ascii.eqb_spec x "'") as [->|N3]; [cbn; now rewrite IH|].
  cbn [replace_all].
  destruct (Ascii.eqb_spec x "(") as [->|N4]; [cbn; now rewrite IH|].
  cbn [replace_all].
  destruct (Ascii.eqb_spec x ")") as [->|N5]; [cbn; now rewrite IH|].
  cbn. now rewrite IH.
Qed.

Lemma contains_char_app (c : ascii) (a b : string) :
  contains_char c (a ++ b) = contains_char c a || contains_char c b.
Proof.
  induction a as [|x a IH]; [reflexivity|].
  simpl. rewrite IH. now rewrite orb_assoc.
Qed.

Lemma fixup_char_clean (c x : ascii) :
  In c Spec.fixed_chars -> contains_char c (Spec.fixup_char x) = false.
Proof.
  intros I. unfold Spec.fixup_char.
  destruct (Ascii.eqb_spec x "*") as [->|N1];
    [|destruct (Ascii.eqb_spec x "!") as [->|N2];
      [|destruct (Ascii.eqb_spec x "'") as [->|N3];
        [|destruct (Ascii.eqb_spec x "(") as [->|N4];
          [|destruct (Ascii.eqb_spec x ")") as [->|N5]]]]];
    simpl in I; decompose [or] I; subst; try reflexivity; try contradiction;
    cbn; rewrite orb_false_r; now apply Ascii.eqb_neq.
Qed.

Lemma fixup_clean (c : ascii) (s : string) :
  In c Spec.fixed_chars -> contains_char c (Spec.fixup s) = false.
Proof.
  intros I. induction s as [|x s IH]; [reflexivity|].
  cbn [Spec.fixup]. rewrite contains_char_app, IH.
  now rewrite fixup_char_clean.
Qed.

Lemma percentEncode_fixup (parseString : Small2.parseString_t) (code : Small2.source) :
  _percentEncode parseString code = Spec.percent_encode parseString code.
Proof. unfold _percentEncode, Spec.percent_encode. apply replacements_fixup. Qed.

(** C7.  [_percentEncode] applies the percent-encoding of [s2.parseString]
    and then replaces every [*], [!], ['], [(] and [)] by [%2A], [%21],
    [%27], [%28] and [%29]: none of the five characters is left in its
    result; and where [s2.parseString] percent-encodes a string the standard
    way, [a*b!c'd(e)f] is encoded as [a%2Ab%21c%27d%28e%29f]. *)
Theorem percentEncode_replaces_five (parseString : Small2.parseString_t) :
  (forall s, parseString (Small2.OfString s) true None None
             = Small2.encodeURIComponent s) ->
  (forall code,
     _percentEncode parseString code
     = Spec.fixup (parseString code true None None))
  /\ (forall code c,
        In c Spec.fixed_chars ->
        contains_char c (_percentEncode parseString code) = false)
  /\ _percentEncode parseString (Small2.OfString "a*b!c'd(e)f")
     = "a%2Ab%21c%27d%28e%29f".
Proof.
  intros Std. repeat split.
  - intros code. apply percentEncode_fixup.
  - intros code c I. rewrite percentEncode_fixup. now apply fixup_clean.
  - rewrite percentEncode_fixup. unfold Spec.percent_encode.
    rewrite Std. reflexivity.
Qed.

(** C7 with the model of [s2.parseString]. *)
Lemma percentEncode_replaces_five_witness :
  (forall s, Small2.parseString (Small2.OfString s) true None None
             = Small2.encodeURIComponent s)
  /\ _percentEncode Small2.parseString (Small2.OfString "a*b!c'd(e)f")
     = "a%2Ab%21c%27d%28e%29f".
Proof.
  split.
  - reflexivity.
  - apply (percentEncode_replaces_five Small2.parseString). reflexivity.
Defined.

(** *** [_paramsFilter] *)

Lemma paramsFilter_unfold (p : obj value) :
  _paramsFilter p
  = fold_left (fun m k => if Spec.kept_key p k then set k (Spec.value_of p k) m else m)
      (sort (keys p)) [].
Proof. reflexivity. Qed.

Lemma fold_filter {A B : Type} (f : A -> bool) (g : B -> A -> B) (l : list A) :
  forall b,
    fold_left (fun m k => if f k then g m k else m) l b
    = fold_left g (filter f l) b.
Proof.
  induction l as [|x l IH]; intros b; simpl; [reflexivity|].
  rewrite IH. now destruct (f x).
Qed.

Lemma fold_left_ext_in {A B : Type} (g h : B -> A -> B) (l : list A) :
  (forall k, In k l -> forall b, g b k = h b k) ->
  forall b, fold_left g l b = fold_left h l b.
Proof.
  induction l as [|x l IH]; intros E b; simpl; [reflexivity|].
  rewrite E by now left. apply IH. intros k I. apply E. now right.
Qed.

Lemma keys_filter_kept (p l : obj value) :
  (forall kv, In kv l -> Spec.value_of p (fst kv) = snd kv) ->
  keys (filter Spec.kept l) = filter (Spec.kept_key p) (keys l).
Proof.
  induction l as [|[k v] l IH]; intros E; [reflexivity|].
  cbn [filter keys map fst]. unfold Spec.kept_key at 1.
  pose proof (E (k, v) (or_introl eq_refl)) as Ek. cbn [fst snd] in Ek.
  rewrite Ek.
  destruct (Spec.kept (k, v)); cbn [keys map fst]; f_equal;
    apply IH; intros kv I; apply E; now right.
Qed.

Lemma value_of_In (p : obj value) :
  NoDup (keys p) -> forall kv, In kv p -> Spec.value_of p (fst kv) = snd kv.
Proof.
  intros ND [k v] I. unfold Spec.value_of. cbn [fst snd].
  now rewrite (In_get p k v ND I).
Qed.

Lemma get_filter_kept (p : obj value) (k : string) :
  NoDup (keys p) -> In k (keys (filter Spec.kept p)) ->
  get (filter Spec.kept p) k = Some (Spec.value_of p k).
Proof.
  intros ND I.
  assert (ND' : NoDup (keys (filter Spec.kept p))).
  { rewrite (keys_filter_kept p p) by now apply value_of_In.
    now apply NoDup_filter. }
  unfold keys in I. apply in_map_iff in I as [[k' v] [E I]].
  cbn [fst] in E. subst k'.
  rewrite (In_get _ k v ND' I).
  apply filter_In in I as [I _].
  unfold Spec.value_of. now rewrite (In_get p k v ND I).
Qed.

(** Inserting an entry by its key among entries that are each a key with
    its value. *)
Lemma insert_entry_named (f : string -> value) (k : string) (ks : list string) :
  ascii_text k = true -> Forall (fun x => ascii_text x = true) ks ->
  Spec.insert_entry (k, f k) (map (fun x => (x, f x)) ks)
  = map (fun x => (x, f x)) (insert_sorted k ks).
Proof.
  intros Ak. induction 1 as [|y ks Ay Aks IH]; [reflexivity|].
  cbn [map Spec.insert_entry insert_sorted fst].
  rewrite (leb_ascii k y Ak Ay).
  destruct (k <=? y)%string; cbn [map]; [reflexivity|].
  now rewrite IH.
Qed.

Lemma sort_entries_named (f : string -> value) (l : obj value) :
  (forall kv, In kv l -> ascii_text (fst kv) = true /\ snd kv = f (fst kv)) ->
  fold_right Spec.insert_entry [] l
  = map (fun x => (x, f x)) (sort (keys l)).
Proof.
  induction l as [|[k v] l IH]; intros H; [reflexivity|].
  cbn [fold_right keys map fst sort].
  destruct (H (k, v) (or_introl eq_refl)) as [Ak Ev]. cbn [fst snd] in Ak, Ev.
  rewrite IH by (intros kv I; apply H; now right).
  rewrite Ev. apply insert_entry_named; [exact Ak|].
  apply Forall_forall. intros x I. apply (proj1 (sort_In _ _)) in I.
  unfold keys in I. apply in_map_iff in I as [kv [E I]]. subst x.
  apply H. now right.
Qed.

(** Where no key is an array index (nor [__proto__]), [_paramsFilter]
    yields the kept keys in the order of [sort], each with its value. *)
Lemma paramsFilter_named (p : obj value) :
  NoDup (keys p) ->
  (forall k, In k (keys p) -> k <> "__proto__" /\ array_index k = None) ->
  _paramsFilter p
  = map (fun k => (k, Spec.value_of p k))
      (sort (filter (Spec.kept_key p) (keys p))).
Proof.
  intros ND H. rewrite paramsFilter_unfold.
  rewrite (fold_filter (Spec.kept_key p) (fun m k => set k (Spec.value_of p k) m)).
  rewrite filter_sort. rewrite fold_set_named.
  - reflexivity.
  - eapply Permutation_NoDup; [apply sort_perm|]. now apply NoDup_filter.
  - intros k I. apply (proj1 (sort_In _ _)) in I.
    apply filter_In in I as [I _]. destruct (H k I) as [P A].
    repeat split; try assumption. simpl. tauto.
Qed.

Lemma wire_name_true (k : string) :
  Spec.wire_name k = true ->
  ascii_text k = true /\ k <> "__proto__" /\ array_index k = None.
Proof.
  unfold Spec.wire_name. intros H.
  apply andb_prop in H as [H A]. apply andb_prop in H as [T P].
  repeat split.
  - exact T.
  - intros ->. discriminate.
  - now destruct (array_index k).
Qed.

(** [_paramsFilter], which sorts the keys, filters them and assigns them to
    a fresh object, builds the map of the specification, which filters the
    entries and arranges them by the bytes of their keys. *)
Lemma paramsFilter_canonical (p : obj value) :
  NoDup (keys p) ->
  (forall k, In k (keys p) -> Spec.wire_name k = true) ->
  _paramsFilter p = Spec.canonical p.
Proof.
  intros ND W. unfold Spec.canonical.
  rewrite (sort_entries_named (Spec.value_of p)).
  - rewrite (keys_filter_kept p p) by now apply value_of_In.
    apply paramsFilter_named; [exact ND|].
    intros k I. destruct (wire_name_true k (W k I)) as [_ [P A]]. now split.
  - intros kv I. apply filter_In in I as [I _]. split.
    + apply (wire_name_true (fst kv)). apply W. unfold keys. now apply in_map.
    + symmetry. now apply value_of_In.
Qed.

(** What the filter keeps: a key other than [Signature] whose value is
    truthy or is 0, with its value; every other key is dropped. *)
Lemma paramsFilter_get (p : obj value) (k : string) :
  k <> "__proto__" ->
  get (_paramsFilter p) k
  = match get p k with
    | Some v =>
        if (negb (k =? "Signature") && (truthy v || is_zero v))%bool
        then Some v else None
    | None => None
    end.
Proof.
  intros P. rewrite paramsFilter_unfold.
  rewrite (fold_filter (Spec.kept_key p) (fun m k => set k (Spec.value_of p k) m)).
  rewrite get_fold_set by assumption. cbn [get].
  destruct (existsb (String.eqb k) (filter (Spec.kept_key p) (sort (keys p)))) eqn:E.
  - apply existsb_exists in E as [x [I Ex]].
    apply String.eqb_eq in Ex. subst x.
    apply filter_In in I as [I K].
    apply (proj1 (sort_In _ _)) in I. apply has_true in I.
    unfold has in I. unfold Spec.kept_key, Spec.value_of, Spec.kept in K.
    unfold Spec.value_of. destruct (get p k) as [v|]; [|discriminate].
    cbn [fst snd] in K. now rewrite K.
  - destruct (get p k) as [v|] eqn:G; [|reflexivity].
    destruct (negb (k =? "Signature") && (truthy v || is_zero v))%bool eqn:K;
      [|reflexivity].
    exfalso. apply Bool.not_true_iff_false in E. apply E.
    apply existsb_exists. exists k. split; [|apply String.eqb_refl].
    apply filter_In. split.
    + apply sort_In. apply has_true. unfold has. now rewrite G.
    + unfold Spec.kept_key, Spec.value_of, Spec.kept. rewrite G. exact K.
Qed.

(** Where no key is an array index (nor [__proto__]), the kept keys are
    enumerated in the ascending order of [sort]. *)
Lemma paramsFilter_sorted (p : obj value) :
  NoDup (keys p) ->
  (forall k, In k (keys p) -> k <> "__proto__" /\ array_index k = None) ->
  keys (_paramsFilter p) = sort (filter (Spec.kept_key p) (keys p))
  /\ StronglySorted le (keys (_paramsFilter p)).
Proof.
  intros ND H.
  assert (E : keys (_paramsFilter p) = sort (filter (Spec.kept_key p) (keys p))).
  { rewrite paramsFilter_unfold.
    rewrite (fold_filter (Spec.kept_key p) (fun m k => set k (Spec.value_of p k) m)).
    rewrite filter_sort. rewrite fold_set_named.
    - cbn [app]. unfold keys at 1. rewrite map_map. cbn [fst]. apply map_id.
    - eapply Permutation_NoDup; [apply sort_perm|]. now apply NoDup_filter.
    - intros k I. apply (proj1 (sort_In _ _)) in I.
      apply filter_In in I as [I _]. destruct (H k I) as [P A].
      repeat split; try assumption. simpl. tauto. }
  split; [exact E|]. rewrite E. apply sort_sorted.
Qed.

(** The example of the specification. *)
Lemma paramsFilter_example :
  _paramsFilter
    [("A", JStr ""); ("B", JNum 0); ("C", JStr "x"); ("Signature", JStr "old")]
  = [("B", JNum 0); ("C", JStr "x")].
Proof. reflexivity. Qed.

(** C1 fails on the code.  The keys are sorted, but the map is rebuilt as a
    plain object, which enumerates array indices first and in numeric order:
    [{'10': 'a', '9': 'b'}] is canonicalized with [9] before [10], while
    [10] comes before [9] in the lexicographic order. *)
Theorem paramsFilter_index_keys_unsorted :
  _paramsFilter [("9", JStr "b"); ("10", JStr "a")]
  = [("9", JStr "b"); ("10", JStr "a")]
  /\ sort (keys [("9", JStr "b"); ("10", JStr "a")]) = ["10"; "9"]
  /\ keys (_paramsFilter [("9", JStr "b"); ("10", JStr "a")])
     <> sort (keys (_paramsFilter [("9", JStr "b"); ("10", JStr "a")])).
Proof. repeat split. vm_compute. discriminate. Qed.

(** *** [_signAliyun] *)

Lemma signing_clone_code (p : obj value) :
  match get p "sign_mode" with
  | Some v => if is_one v then delete "items" p else p
  | None => p
  end = Spec.signing_clone p.
Proof.
  unfold Spec.signing_clone.
  destruct (get p "sign_mode") as [[| |b|z| |s|l]|]; try reflexivity.
  cbn [is_one]. destruct (Z.eqb_spec z 1) as [->|N]; [reflexivity|].
  destruct z as [|[q|q|]|q]; try reflexivity. contradiction.
Qed.

Lemma NoDup_signing_clone (p : obj value) :
  NoDup (keys p) -> NoDup (keys (Spec.signing_clone p)).
Proof.
  intros ND. unfold Spec.signing_clone.
  destruct (get p "sign_mode") as [[| |b|z| |s|l]|]; try assumption.
  destruct z as [|[q|q|]|q]; try assumption.
  now apply NoDup_keys_delete.
Qed.

Lemma keys_signing_clone (p : obj value) (k : string) :
  In k (keys (Spec.signing_clone p)) -> In k (keys p).
Proof.
  unfold Spec.signing_clone.
  destruct (get p "sign_mode") as [[| |b|z| |s|l]|]; try (intros I; exact I).
  destruct z as [|[q|q|]|q]; try (intros I; exact I).
  rewrite keys_delete. intros I. now apply filter_In in I as [I _].
Qed.




(** Why the keys are restricted.  Array indices are enumerated in numeric
    order, whatever their bytes: for [{'10': 'a', '9': 'b'}] the signed query
    string starts with [9], the canonical one with [10].  And [sort]
    compares UTF-16 code units: the key [U+1F600] (a pair of surrogates) is
    signed before the key [U+FF5E], whose bytes are smaller. *)
Lemma signAliyun_other_keys :
  let o := CloudClient no_opts in
  let indices := [ ("10", JStr "a"); ("9", JStr "b") ] in
  let u_ff5e := String (ascii_of_N 239) (String (ascii_of_N 189)
                  (String (ascii_of_N 158) "")) in
  let u_1f600 := String (ascii_of_N 240) (String (ascii_of_N 159)
                   (String (ascii_of_N 152) (String (ascii_of_N 128) ""))) in
  let wide := [ (u_ff5e, JStr "a"); (u_1f600, JStr "b") ] in
  _percentEncode Small2.parseString (Small2.OfObject (_paramsFilter indices))
  = "9=b&10=a"
  /\ Spec.percent_encode Small2.parseString
       (Small2.OfObject (Spec.canonical indices))
     = "10=a&9=b"
  /\ _signAliyun Small2.parseString Utility.hmac JS.toUpperCase indices o
     <> Spec.signature Small2.parseString JS.toUpperCase indices
          (method o) (secret o)
  /\ _percentEncode Small2.parseString (Small2.OfObject (_paramsFilter wide))
     = "%F0%9F%98%80=b&%EF%BD%9E=a"
  /\ Spec.percent_encode Small2.parseString
       (Small2.OfObject (Spec.canonical wide))
     = "%EF%BD%9E=a&%F0%9F%98%80=b"
  /\ _signAliyun Small2.parseString Utility.hmac JS.toUpperCase wide o
     <> Spec.signature Small2.parseString JS.toUpperCase wide
          (method o) (secret o).
Proof.
  intros o indices u_ff5e u_1f600 wide.
  split; [vm_compute; reflexivity|].
  split; [vm_compute; reflexivity|].
  split; [vm_compute; discriminate|].
  split; [vm_compute; reflexivity|].
  split; [vm_compute; reflexivity|].
  vm_compute; discriminate.
Qed.

(** *** [callRequest] *)

Lemma callRequest_opts
    (parseString : Small2.parseString_t)
    (hmac : string -> string -> string -> string)
    (toUpperCase : string -> string)
    (e : env) (path : string) (params : option (obj value)) (m : string)
    (o : opts) :
  fst (fst (callRequest parseString hmac toUpperCase e path params m o))
  = set_method (str_or m (method o)) o.
Proof.
  unfold callRequest.
  destruct (protocol (set_method (str_or m (method o)) o) =? "http");
    reflexivity.
Qed.

(** C8 fails on the code.  [callRequest] leaves every field of the stored
    configuration as it was except [method], which it overwrites with its
    [method] argument: after a call with [POST] the stored default method of
    a client built with the default options is [POST], no longer [GET]. *)
Theorem callRequest_overwrites_method
    (parseString : Small2.parseString_t)
    (hmac : string -> string -> string -> string)
    (toUpperCase : string -> string) (e : env) :
  (forall path params m o,
     fst (fst (callRequest parseString hmac toUpperCase e path params m o))
     = set_method (str_or m (method o)) o)
  /\ method (CloudClient no_opts) = "GET"
  /\ method (fst (fst (callRequest parseString hmac toUpperCase e "/search"
                         None "POST" (CloudClient no_opts))))
     = "POST".
Proof.
  split; [|split].
  - intros. apply callRequest_opts.
  - reflexivity.
  - now rewrite callRequest_opts.
Qed.

End CloudClientProps.

(** ** Scroll calls *)

Module ScrollProps.
Import JS Facts CloudSearch.

Section Scroll.
Variable parseString : Small2.parseString_t.
Variable goneEmpty : Small2.goneEmpty_t.
Variable hmac : string -> string -> string -> string.
Variable toUpperCase : string -> string.
Hypothesis contract : Spec.goneEmpty_contract goneEmpty.

(** [callRequest] leaves every other field of the param map as it is. *)
Lemma callRequest_params e path p m c k :
  ~ In k Spec.auth_keys ->
  get (snd (fst (CloudClient.callRequest parseString hmac toUpperCase e path
                   (Some p) m c))) k
  = get p k.
Proof.
  intros N. unfold CloudClient.callRequest.
  destruct (CloudClient.protocol _ =? "http"); cbn [fst snd];
    repeat (rewrite get_set_other;
            [|intros <-; apply N; simpl; tauto]);
    reflexivity.
Qed.

Lemma get_put k x target k' :
  k <> k' -> get (put goneEmpty k x target) k' = get target k'.
Proof.
  intros N. unfold put. destruct (truthy (goneEmpty x)); [|reflexivity].
  now apply get_set_other.
Qed.

Lemma put_nonempty k s target :
  s <> "" -> put goneEmpty k (JStr s) target = set k (JStr s) target.
Proof.
  intros N. unfold put. rewrite (proj1 contract s N). cbn [truthy].
  now apply String.eqb_neq in N as ->.
Qed.

(** Joining an array never throws under the contract of [goneEmpty]. *)
Lemma put_joined_array k sep l target :
  exists target',
    put_joined goneEmpty k sep (JArr l) target = Normal target'
    /\ forall k', k <> k' -> get target' k' = get target k'.
Proof.
  unfold put_joined. destruct (proj2 contract l) as [E|E]; rewrite E.
  - cbn [truthy array_join]. eexists. split; [reflexivity|].
    intros k' N. now apply get_set_other.
  - eexists. split; [reflexivity | reflexivity].
Qed.

(** Merging the custom parameters adds no key they do not have. *)
Lemma get_custom (custom : obj string) : forall (base : obj value) k,
  has custom k = false ->
  get (fold_left (fun p kv => set (fst kv) (JStr (snd kv)) p) custom base) k
  = get base k.
Proof.
  induction custom as [|[k0 v0] custom IH]; intros base k H; [reflexivity|].
  apply has_false in H. cbn [fold_left fst snd].
  rewrite IH.
  - apply get_set_other. intros ->. apply H. now left.
  - apply has_false. intros I. apply H. now right.
Qed.

(** What the merged map holds under a key is what it held before or the
    value of a custom parameter of that name. *)
Lemma get_custom_inv (custom : obj string) : forall (base : obj value) k x,
  get (fold_left (fun p kv => set (fst kv) (JStr (snd kv)) p) custom base) k
  = Some x ->
  get base k = Some x \/ exists v, In (k, v) custom /\ x = JStr v.
Proof.
  induction custom as [|[k0 v0] custom IH]; intros base k x H; [now left|].
  cbn [fold_left fst snd] in H.
  destruct (IH _ _ _ H) as [G|[v [I E]]].
  - destruct (String.eqb_spec k0 k) as [->|N].
    + destruct (String.eqb_spec k "__proto__") as [->|P].
      * rewrite set_proto in G. now left.
      * rewrite get_set, String.eqb_refl in G by assumption.
        injection G as <-.
        right. exists v0. split; [now left | reflexivity].
    + rewrite get_set_other in G by assumption. now left.
  - right. exists v. split; [now right | exact E].
Qed.

(** In scroll mode the clause map has the clauses [query] and [config] and
    at most [filter] and [kvpairs]. *)
Lemma haquery_scroll o k :
  ~ In k ["query"; "config"; "filter"; "kvpairs"] ->
  get (haquery parseString goneEmpty "scroll" o) k = None.
Proof.
  intros N. unfold haquery. cbn [String.eqb Ascii.eqb Bool.eqb].
  rewrite !get_put by (intros <-; apply N; simpl; tauto).
  rewrite !get_set_other by (intros <-; apply N; simpl; tauto).
  reflexivity.
Qed.

Lemma query_params_scroll o :
  getScroll o = JStr "1m" -> getScrollId o = JStr "abc" ->
  exists params,
    query_params parseString goneEmpty "scroll" o = Normal params
    /\ get params "search_type" = Some (JStr "scan")
    /\ get params "scroll" = Some (JStr "1m")
    /\ get params "scroll_id" = Some (JStr "abc")
    /\ (forall k, In k Spec.search_only_keys ->
                  has (getCustomParam o) k = false -> get params k = None)
    /\ (has (getCustomParam o) "query" = false ->
        get params "query"
        = Some (JStr (replace_all "&" "&&"
                        (parseString
                           (Small2.OfObject (haquery parseString goneEmpty "scroll" o))
                           false None None)))).
Proof.
  intros Hs Hi. unfold query_params. cbn [str_or String.eqb Ascii.eqb Bool.eqb].
  match goal with
  | |- context [put_joined goneEmpty ?k ?sep (JArr ?l) ?t] =>
      destruct (put_joined_array k sep l t) as [p1 [E1 G1]]
  end.
  rewrite E1. cbn [bind]. rewrite Hs, Hi.
  rewrite !put_nonempty by discriminate.
  eexists. split; [reflexivity|].
  split; [now rewrite get_set by discriminate|].
  split; [rewrite get_set_other, get_set_other, get_set by discriminate;
          reflexivity|].
  split; [rewrite get_set_other, get_set by discriminate; reflexivity|].
  split.
  - intros k I H.
    assert (Hk : get p1 k = None).
    { rewrite G1 by (intros <-; simpl in I; intuition discriminate).
      rewrite get_custom by assumption.
      rewrite !get_set_other by (intros <-; simpl in I; intuition discriminate).
      reflexivity. }
    rewrite !get_set_other by (intros <-; simpl in I; intuition discriminate).
    exact Hk.
  - intros H. rewrite !get_set_other by discriminate.
    rewrite G1 by discriminate. rewrite get_custom by assumption.
    rewrite !get_set_other by discriminate.
    now rewrite get_set by discriminate.
Qed.

(** In scroll mode a key that is neither [fetch_fields] nor one of the three
    scroll keys holds what the builder computed for it ([query],
    [index_name], [Format]) or the value of a custom parameter of that
    name. *)
Lemma query_params_scroll_origin o params k x :
  query_params parseString goneEmpty "scroll" o = Normal params ->
  ~ In k ["fetch_fields"; "scroll"; "scroll_id"; "search_type"] ->
  get params k = Some x ->
  get [ ("query",
         JStr (replace_all "&" "&&"
                 (parseString
                    (Small2.OfObject (haquery parseString goneEmpty "scroll" o))
                    false None None)));
        ("index_name", JStr (join ";" (getSearchIndexes o)));
        ("Format", JStr (getFormat o)) ] k = Some x
  \/ exists v, In (k, v) (getCustomParam o) /\ x = JStr v.
Proof.
  clear contract.
  unfold query_params. cbn [str_or String.eqb Ascii.eqb Bool.eqb].
  intros E N G.
  unfold put_joined in E.
  match type of E with
  | context [fold_left ?f ?c ?base] =>
      pose proof (get_custom_inv c base k x) as Inv;
      set (merged := fold_left f c base) in *
  end.
  assert (Mode : forall m,
    get (set "search_type" (JStr SEARCH_TYPE_SCAN)
           (put goneEmpty "scroll_id" (getScrollId o)
              (put goneEmpty "scroll" (getScroll o) m))) k
    = get m k).
  { intros m. rewrite get_set_other by (intros <-; apply N; simpl; tauto).
    rewrite !get_put by (intros <-; apply N; simpl; tauto). reflexivity. }
  destruct (truthy (goneEmpty (JArr (map JStr (getFetchFields o))))).
  - destruct (array_join ";" (goneEmpty (JArr (map JStr (getFetchFields o)))))
      as [j|]; [|discriminate].
    cbn [bind] in E. injection E as <-.
    rewrite Mode in G.
    rewrite get_set_other in G by (intros <-; apply N; simpl; tauto).
    now apply Inv.
  - cbn [bind] in E. injection E as <-.
    rewrite Mode in G. now apply Inv.
Qed.

Lemma extract_scroll_no_opts o :
  extract (Some no_call_opts) "scroll" o = Normal (setSearchType SEARCH_TYPE_SCAN o).
Proof. reflexivity. Qed.

End Scroll.

Lemma goneEmpty_model_contract : Spec.goneEmpty_contract Small2.goneEmpty.
Proof.
  split.
  - intros s N. unfold Small2.goneEmpty. cbn [truthy].
    now apply String.eqb_neq in N as ->.
  - intros [|x l]; [right | left]; reflexivity.
Qed.



End ScrollProps.

(** ** Further properties of the transport client *)

Module TransportExtra.
Import JS Facts CloudClient.

(** *** Sorting and the keys of an object *)

Lemma sorted_perm_eq (l1 : list string) : forall l2,
  StronglySorted le l1 -> StronglySorted le l2 -> Permutation l1 l2 -> l1 = l2.
Proof.
  induction l1 as [|a l1 IH]; intros l2 S1 S2 P.
  - now apply Permutation_nil in P.
  - destruct l2 as [|b l2];
      [symmetry in P; now apply Permutation_nil_cons in P|].
    apply StronglySorted_inv in S1 as [S1 A].
    apply StronglySorted_inv in S2 as [S2 B].
    assert (E : a = b).
    { assert (Ia : In a (b :: l2)) by (eapply Permutation_in; [exact P | now left]).
      assert (Ib : In b (a :: l1))
        by (eapply Permutation_in; [symmetry; exact P | now left]).
      destruct Ia as [->|Ia]; [reflexivity|].
      destruct Ib as [->|Ib]; [reflexivity|].
      rewrite Forall_forall in A, B.
      apply Facts.leb_antisym; [now apply A | now apply B]. }
    subst b. f_equal. apply IH; try assumption.
    now apply Permutation_cons_inv in P.
Qed.

Lemma sort_permutation (l l' : list string) :
  Permutation l l' -> sort l = sort l'.
Proof.
  intros P. apply sorted_perm_eq; try apply sort_sorted.
  rewrite <- (sort_perm l), <- (sort_perm l'). exact P.
Qed.

Lemma sort_of_sorted (l : list string) : StronglySorted le l -> sort l = l.
Proof.
  intros S. apply sorted_perm_eq; [apply sort_sorted | exact S |].
  symmetry. apply sort_perm.
Qed.

Lemma filter_all {A : Type} (f : A -> bool) (l : list A) :
  (forall x, In x l -> f x = true) -> filter f l = l.
Proof.
  induction l as [|x l IH]; intros H; [reflexivity|].
  simpl. rewrite (H x) by now left. f_equal. apply IH.
  intros y I. apply H. now right.
Qed.

Section Keys.
Context {V : Type}.
Implicit Types (o : obj V) (k : string) (v : V).

Lemma keys_replace o k v : keys (replace k v o) = keys o.
Proof.
  induction o as [|[k0 v0] o IH]; [reflexivity|].
  simpl. destruct (k0 =? k); simpl; [reflexivity | now rewrite IH].
Qed.

Lemma keys_insert_index o n k v :
  Permutation (keys (insert_index n k v o)) (k :: keys o).
Proof.
  induction o as [|[k0 v0] o IH]; simpl; [reflexivity|].
  destruct (array_index k0) as [n0|]; [destruct (n0 <? n)%N|]; simpl;
    try reflexivity.
  rewrite IH. apply perm_swap.
Qed.

(** Writing a new property adds its key and no other. *)
Lemma keys_set_new o k v :
  k <> "__proto__" -> ~ In k (keys o) ->
  Permutation (keys (set k v o)) (k :: keys o).
Proof.
  intros P N. unfold set.
  apply String.eqb_neq in P. rewrite P.
  apply has_false in N. rewrite N.
  destruct (array_index k) as [n|].
  - apply keys_insert_index.
  - unfold keys. rewrite map_app. simpl.
    symmetry. apply Permutation_cons_append.
Qed.

Lemma keys_fold_set (f : string -> V) (l : list string) : forall o,
  NoDup l ->
  (forall k, In k l -> k <> "__proto__" /\ ~ In k (keys o)) ->
  Permutation (keys (fold_left (fun m x => set x (f x) m) l o)) (keys o ++ l).
Proof.
  induction l as [|x l IH]; intros o ND H.
  - simpl. now rewrite app_nil_r.
  - inversion ND as [|? ? Hx ND']; subst.
    destruct (H x (or_introl eq_refl)) as [P N].
    cbn [fold_left]. rewrite IH; try assumption.
    + rewrite (keys_set_new o x (f x) P N).
      simpl. apply Permutation_middle.
    + intros k I. destruct (H k (or_intror I)) as [Pk Nk].
      split; [exact Pk|]. intros J.
      apply (Permutation_in _ (keys_set_new o x (f x) P N)) in J.
      destruct J as [<-|J]; contradiction.
Qed.

Lemma delete_replace o k k' v :
  k <> k' -> delete k (replace k' v o) = replace k' v (delete k o).
Proof.
  intros N. induction o as [|[k0 v0] o IH]; [reflexivity|].
  simpl. destruct (String.eqb_spec k0 k') as [->|N'].
  - simpl. destruct (String.eqb_spec k' k) as [E|_]; [congruence|].
    simpl. now rewrite String.eqb_refl.
  - simpl. destruct (String.eqb_spec k0 k) as [->|N'']; [exact IH|].
    simpl. apply String.eqb_neq in N'. rewrite N'. now rewrite IH.
Qed.

Lemma delete_app o o' k : delete k (o ++ o')%list = (delete k o ++ delete k o')%list.
Proof.
  induction o as [|[k0 v0] o IH]; [reflexivity|].
  simpl. destruct (k0 =? k); simpl; now rewrite IH.
Qed.

Lemma has_delete_other o k k' : k <> k' -> has (delete k o) k' = has o k'.
Proof.
  intros N. unfold has. rewrite get_delete.
  destruct (String.eqb_spec k k'); [contradiction | reflexivity].
Qed.

(** Deleting one property and writing another that is not an array index
    can be done in either order. *)
Lemma delete_set_named o k k' v :
  k <> k' -> array_index k' = None ->
  delete k (set k' v o) = set k' v (delete k o).
Proof.
  intros N A. unfold set. destruct (k' =? "__proto__"); [reflexivity|].
  rewrite has_delete_other by assumption.
  destruct (has o k').
  - now apply delete_replace.
  - rewrite A, delete_app. simpl.
    destruct (String.eqb_spec k' k); [congruence | reflexivity].
Qed.
End Keys.

(** *** [_paramsFilter] *)

Lemma paramsFilter_fold (p : obj value) :
  _paramsFilter p
  = fold_left (fun m k => set k (Spec.value_of p k) m)
      (sort (filter (Spec.kept_key p) (keys p))) [].
Proof.
  rewrite <- filter_sort.
  exact (CloudClientProps.fold_filter (Spec.kept_key p)
           (fun m k => set k (Spec.value_of p k) m) (sort (keys p)) []).
Qed.

Lemma kept_key_not_Signature (p : obj value) (k : string) :
  Spec.kept_key p k = true -> k <> "Signature".
Proof.
  unfold Spec.kept_key, Spec.kept. cbn [fst]. intros H ->. discriminate.
Qed.

(** X3.  Canonicalizing a canonical map changes nothing: [_paramsFilter] is
    idempotent on every param map (an object, whose keys are distinct and
    none of which is an own [__proto__]). *)
Theorem paramsFilter_idempotent (p : obj value) :
  NoDup (keys p) -> ~ In "__proto__" (keys p) ->
  _paramsFilter (_paramsFilter p) = _paramsFilter p.
Proof.
  intros ND NP.
  set (L := sort (filter (Spec.kept_key p) (keys p))).
  assert (InL : forall k, In k L -> In k (keys p) /\ Spec.kept_key p k = true).
  { intros k I. apply (proj1 (sort_In _ _)) in I.
    apply filter_In in I. exact I. }
  assert (NDL : NoDup L).
  { eapply Permutation_NoDup; [apply sort_perm|]. now apply NoDup_filter. }
  assert (PL : forall k, In k L -> k <> "__proto__").
  { intros k I ->. apply NP. now apply InL. }
  assert (R : _paramsFilter p
              = fold_left (fun m k => set k (Spec.value_of p k) m) L []).
  { apply paramsFilter_fold. }
  assert (KR : Permutation (keys (_paramsFilter p)) L).
  { rewrite R. rewrite keys_fold_set; [reflexivity | exact NDL |].
    intros k I. split; [now apply PL | simpl; tauto]. }
  assert (VR : forall k, In k L ->
             Spec.value_of (_paramsFilter p) k = Spec.value_of p k).
  { intros k I. unfold Spec.value_of at 1. rewrite R.
    rewrite get_fold_set by now apply PL.
    assert (E : existsb (String.eqb k) L = true).
    { apply existsb_exists. exists k. split; [exact I | apply String.eqb_refl]. }
    now rewrite E. }
  rewrite (paramsFilter_fold (_paramsFilter p)).
  assert (F : filter (Spec.kept_key (_paramsFilter p)) (keys (_paramsFilter p))
              = keys (_paramsFilter p)).
  { apply filter_all. intros k I.
    apply (Permutation_in _ KR) in I.
    unfold Spec.kept_key. rewrite VR by assumption. now apply InL. }
  rewrite F, (sort_permutation _ _ KR).
  rewrite (sort_of_sorted L) by apply sort_sorted.
  transitivity (fold_left (fun m k => set k (Spec.value_of p k) m) L []);
    [|symmetry; exact R].
  apply CloudClientProps.fold_left_ext_in.
  intros k I b. now rewrite VR.
Qed.

Lemma paramsFilter_idempotent_witness :
  let p := [ ("9", JStr "b"); ("10", JStr "a"); ("query", JStr "x");
             ("empty", JStr ""); ("B", JNum 0); ("Signature", JStr "old") ] in
  _paramsFilter (_paramsFilter p) = _paramsFilter p.
Proof.
  intros p. apply (paramsFilter_idempotent p).
  - repeat constructor; simpl; intuition discriminate.
  - simpl. intuition discriminate.
Defined.

(** *** [_signAliyun] and [callRequest] *)

Lemma kept_key_set_Signature (p : obj value) (v : value) (k : string) :
  Spec.kept_key (set "Signature" v p) k = Spec.kept_key p k.
Proof.
  unfold Spec.kept_key, Spec.kept, Spec.value_of. cbn [fst snd].
  destruct (String.eqb_spec k "Signature") as [->|N]; [reflexivity|].
  rewrite get_set_other by congruence. reflexivity.
Qed.

Lemma keys_set_Signature (p : obj value) (v : value) :
  filter (Spec.kept_key p) (keys (set "Signature" v p))
  = filter (Spec.kept_key p) (keys p).
Proof.
  unfold set. cbn [String.eqb Ascii.eqb Bool.eqb].
  destruct (has p "Signature"); [now rewrite keys_replace|].
  cbn [array_index String.eqb Ascii.eqb Bool.eqb andb negb digits_value digit_value].
  change (filter (Spec.kept_key p) (keys (p ++ [("Signature", v)])%list)
          = filter (Spec.kept_key p) (keys p)).
  unfold keys. rewrite map_app, filter_app. simpl.
  unfold Spec.kept_key at 2, Spec.kept. cbn [fst String.eqb Ascii.eqb Bool.eqb negb andb].
  now rewrite app_nil_r.
Qed.

(** A [Signature] entry of the param map does not enter the canonical
    map. *)
Lemma paramsFilter_set_Signature (p : obj value) (v : value) :
  _paramsFilter (set "Signature" v p) = _paramsFilter p.
Proof.
  rewrite !paramsFilter_fold.
  rewrite (filter_ext _ _ (kept_key_set_Signature p v)).
  rewrite keys_set_Signature.
  apply CloudClientProps.fold_left_ext_in. intros k I b.
  apply (proj1 (sort_In _ _)) in I. apply filter_In in I as [_ K].
  apply kept_key_not_Signature in K.
  unfold Spec.value_of. rewrite get_set_other by congruence. reflexivity.
Qed.

Section Calls.
Variable parseString : Small2.parseString_t.
Variable hmac : string -> string -> string -> string.
Variable toUpperCase : string -> string.

Lemma signAliyun_set_Signature (p : obj value) (v : value) (o : opts) :
  _signAliyun parseString hmac toUpperCase (set "Signature" v p) o
  = _signAliyun parseString hmac toUpperCase p o.
Proof.
  unfold _signAliyun. rewrite get_set_other by discriminate.
  destruct (get p "sign_mode") as [m|];
    [destruct (is_one m)|];
    rewrite ?delete_set_named by (discriminate || reflexivity);
    now rewrite paramsFilter_set_Signature.
Qed.

(** X4.  The signature [callRequest] stores can be recomputed from the param
    map it leaves: signing that map, [Signature] entry included, with the
    options it leaves gives the stored [Signature] again. *)
Theorem callRequest_signature_recomputable
    (e : env) (path : string) (params : option (obj value)) (m : string)
    (o : opts) :
  let out := callRequest parseString hmac toUpperCase e path params m o in
  get (snd (fst out)) "Signature"
  = Some (JStr (_signAliyun parseString hmac toUpperCase
                  (snd (fst out)) (fst (fst out)))).
Proof.
  unfold callRequest.
  destruct (protocol _ =? "http"); cbn [fst snd];
    rewrite signAliyun_set_Signature;
    now rewrite get_set by discriminate.
Qed.

(** X5.  [callRequest] completes the param map with the seven
    authentication fields, taken from the stored options, the nonce and the
    date - a value the caller gave under one of these names is replaced -
    and leaves every other parameter as the caller gave it; without a param
    map the request has exactly these seven fields. *)
Theorem callRequest_completes_params
    (e : env) (path : string) (m : string) (o : opts) :
  (forall p k, ~ In k Spec.auth_keys ->
     get (snd (fst (callRequest parseString hmac toUpperCase e path (Some p) m o))) k
     = get p k)
  /\ (forall params,
        let p' := snd (fst (callRequest parseString hmac toUpperCase e path params m o)) in
        get p' "Version" = Some (JStr (version o))
        /\ get p' "AccessKeyId" = Some (JStr (accessKeyId o))
        /\ get p' "SignatureMethod" = Some (JStr (signatureMethod o))
        /\ get p' "SignatureVersion" = Some (JStr (signatureVersion o))
        /\ get p' "SignatureNonce" = Some (JStr (_nonceAliyun e))
        /\ get p' "Timestamp" = Some (JStr (utc_date e)))
  /\ keys (snd (fst (callRequest parseString hmac toUpperCase e path None m o)))
     = Spec.auth_keys.
Proof.
  split; [|split].
  - intros p k N. unfold callRequest.
    destruct (protocol _ =? "http"); cbn [fst snd];
      repeat (rewrite get_set_other; [|intros <-; apply N; simpl; tauto]);
      reflexivity.
  - intros params p'. subst p'. unfold callRequest.
    destruct (protocol _ =? "http"); cbn [fst snd];
      repeat split;
      repeat (rewrite get_set_other by discriminate);
      now rewrite get_set by discriminate.
  - unfold callRequest. destruct (protocol _ =? "http"); reflexivity.
Qed.

(** X6.  A request is issued exactly when the stored protocol is [http].
    For any other protocol, [https] included, [callRequest] returns nothing,
    and yet it has done everything else as for [http]: it has overwritten
    the stored method, and it has completed and signed the param map of the
    caller, entry for entry as it would have for [http]. *)
Theorem callRequest_only_http
    (e : env) (path : string) (params : option (obj value)) (m : string)
    (o : opts) :
  (protocol o = "http" <->
   exists r, snd (callRequest parseString hmac toUpperCase e path params m o)
             = Some r)
  /\ (protocol o <> "http" <->
      snd (callRequest parseString hmac toUpperCase e path params m o) = None)
  /\ fst (fst (callRequest parseString hmac toUpperCase e path params m o))
     = set_method (str_or m (method o)) o
  /\ snd (fst (callRequest parseString hmac toUpperCase e path params m o))
     = snd (fst (callRequest parseString hmac toUpperCase e path params m
                   (set_protocol "http" o)))
  /\ get (snd (fst (callRequest parseString hmac toUpperCase e path params m o)))
       "Signature"
     = Some (JStr (_signAliyun parseString hmac toUpperCase
                     (snd (fst (callRequest parseString hmac toUpperCase e
                                  path params m o)))
                     (set_method (str_or m (method o)) o))).
Proof.
  split; [|split; [|split; [|split]]].
  - unfold callRequest. cbn [protocol set_method].
    destruct (String.eqb_spec (protocol o) "http") as [E|N]; cbn [snd];
      split; intros H; try assumption; try contradiction;
      try discriminate; try (now eexists). destruct H; discriminate.
  - unfold callRequest. cbn [protocol set_method].
    destruct (String.eqb_spec (protocol o) "http") as [E|N]; cbn [snd];
      split; intros H; try assumption; try reflexivity;
      try contradiction; discriminate.
  - apply CloudClientProps.callRequest_opts.
  - unfold callRequest. cbn [protocol set_method set_protocol String.eqb
      Ascii.eqb Bool.eqb].
    destruct (protocol o =? "http"); reflexivity.
  - unfold callRequest.
    destruct (protocol _ =? "http"); cbn [fst snd];
      rewrite signAliyun_set_Signature;
      now rewrite get_set by discriminate.
Qed.

(** X7.  Unless the upper-cased method is [GET], the request carries no
    parameter at all: its URL is the base URI followed by the path, whatever
    the param map holds. *)
Theorem callRequest_non_GET_sends_no_params
    (e : env) (path : string) (params : option (obj value)) (m : string)
    (o : opts) :
  protocol o = "http" ->
  toUpperCase (str_or m (method o)) <> "GET" ->
  exists r,
    snd (callRequest parseString hmac toUpperCase e path params m o) = Some r
    /\ req_method r = toUpperCase (str_or m (method o))
    /\ req_url r = baseURI o ++ path.
Proof.
  intros Hp Hm. unfold callRequest. cbn [protocol set_method].
  rewrite Hp. cbn [String.eqb Ascii.eqb Bool.eqb snd].
  eexists. split; [reflexivity|].
  unfold _httpRequest. cbn [method set_method req_method req_url baseURI].
  apply String.eqb_neq in Hm. rewrite Hm. split; reflexivity.
Qed.
End Calls.

Lemma callRequest_non_GET_sends_no_params_witness :
  let hmac := fun alg key data => alg ++ ":" ++ key ++ ":" ++ data in
  let e := mk_env 1500000000000 1234 "2017-07-14T02:40:00Z" in
  exists r,
    snd (callRequest Small2.parseString hmac JS.toUpperCase e "/search"
           (Some [("query", JStr "a b")]) "post" (CloudClient no_opts))
    = Some r
    /\ req_method r = "POST"
    /\ req_url r = "http://opensearch.aliyuncs.com/search".
Proof.
  intros hmac e.
  apply (callRequest_non_GET_sends_no_params Small2.parseString hmac
           JS.toUpperCase e "/search" (Some [("query", JStr "a b")]) "post"
           (CloudClient no_opts)).
  - reflexivity.
  - vm_compute. discriminate.
Defined.

(** *** What the canonical map holds *)

Lemma paramsFilter_keys (p : obj value) :
  NoDup (keys p) -> ~ In "__proto__" (keys p) ->
  Permutation (keys (_paramsFilter p))
    (sort (filter (Spec.kept_key p) (keys p))).
Proof.
  intros ND NP. rewrite paramsFilter_fold.
  rewrite keys_fold_set; [reflexivity | |].
  - eapply Permutation_NoDup; [apply sort_perm|]. now apply NoDup_filter.
  - intros k I. apply (proj1 (sort_In _ _)) in I.
    apply filter_In in I as [I _]. split; [|simpl; tauto].
    intros ->. contradiction.
Qed.

(** X1.  The canonical map holds exactly the entries of the param map whose
    key is not [Signature] and whose value is truthy or is 0, each with the
    value it had: nothing is added and nothing else is dropped. *)
Theorem paramsFilter_entries (p : obj value) (k : string) (v : value) :
  NoDup (keys p) -> ~ In "__proto__" (keys p) ->
  (In (k, v) (_paramsFilter p)
   <-> In (k, v) p /\ k <> "Signature" /\ (truthy v || is_zero v) = true).
Proof.
  intros ND NP.
  assert (NDR : NoDup (keys (_paramsFilter p))).
  { eapply Permutation_NoDup; [symmetry; now apply paramsFilter_keys|].
    eapply Permutation_NoDup; [apply sort_perm|]. now apply NoDup_filter. }
  assert (G : forall k, k <> "__proto__" ->
            get (_paramsFilter p) k
            = if Spec.kept_key p k then get p k else None).
  { intros k0 P. rewrite paramsFilter_fold, get_fold_set by assumption.
    cbn [get].
    destruct (existsb (String.eqb k0) (sort (filter (Spec.kept_key p) (keys p))))
      eqn:E.
    - apply existsb_exists in E as [x [I Ex]].
      apply String.eqb_eq in Ex. subst x.
      apply (proj1 (sort_In _ _)) in I. apply filter_In in I as [I K].
      rewrite K. unfold Spec.value_of.
      apply has_true in I. unfold has in I. now destruct (get p k0).
    - unfold Spec.kept_key, Spec.value_of.
      destruct (get p k0) as [v0|] eqn:Gk.
      + destruct (Spec.kept (k0, v0)) eqn:K; [|reflexivity].
        exfalso. apply Bool.not_true_iff_false in E. apply E.
        apply existsb_exists. exists k0. split; [|apply String.eqb_refl].
        apply sort_In, filter_In. split.
        * apply has_true. unfold has. now rewrite Gk.
        * unfold Spec.kept_key, Spec.value_of. now rewrite Gk.
      + now destruct (Spec.kept (k0, JUndefined)). }
  split.
  - intros I.
    assert (Kk : In k (keys (_paramsFilter p))) by (now apply (in_map fst) in I).
    assert (P : k <> "__proto__").
    { intros ->. apply (Permutation_in _ (paramsFilter_keys p ND NP)) in Kk.
      apply (proj1 (sort_In _ _)) in Kk. apply filter_In in Kk as [Kk _].
      contradiction. }
    apply (In_get _ _ _ NDR) in I. rewrite (G k P) in I.
    unfold Spec.kept_key, Spec.value_of in I.
    destruct (get p k) as [v0|] eqn:Gk.
    + destruct (Spec.kept (k, v0)) eqn:K; [|discriminate].
      injection I as <-. split; [now apply get_In|].
      unfold Spec.kept in K. cbn [fst snd] in K.
      apply andb_prop in K as [K1 K2].
      split; [|exact K2].
      apply negb_true_iff in K1. now apply String.eqb_neq.
    + now destruct (Spec.kept (k, JUndefined)).
  - intros [I [NS T]].
    assert (P : k <> "__proto__").
    { intros ->. apply NP. now apply (in_map fst) in I. }
    apply get_In. rewrite (G k P).
    unfold Spec.kept_key, Spec.value_of. rewrite (In_get _ _ _ ND I).
    unfold Spec.kept. cbn [fst snd]. rewrite T.
    apply String.eqb_neq in NS. now rewrite NS.
Qed.

Lemma paramsFilter_entries_witness :
  let p := [ ("A", JStr ""); ("B", JNum 0); ("C", JStr "x");
             ("Signature", JStr "old") ] in
  In ("B", JNum 0) (_paramsFilter p)
  <-> In ("B", JNum 0) p /\ "B" <> "Signature"
      /\ (truthy (JNum 0) || is_zero (JNum 0)) = true.
Proof.
  intros p. apply (paramsFilter_entries p "B" (JNum 0)).
  - repeat constructor; simpl; intuition discriminate.
  - simpl. intuition discriminate.
Defined.

Lemma StronglySorted_impl_in {A : Type} (R R' : A -> A -> Prop) (l : list A) :
  (forall x y, In x l -> In y l -> R x y -> R' x y) ->
  StronglySorted R l -> StronglySorted R' l.
Proof.
  intros H S. induction S as [|x l S IH F]; constructor.
  - apply IH. intros a b Ia Ib. apply H; now right.
  - rewrite Forall_forall in *. intros y I.
    apply H; [now left | now right | now apply F].
Qed.

(** X2.  Where no key of the param map is an array index (nor [__proto__]),
    the canonical map enumerates the kept keys in the ascending order of
    [Array.prototype.sort], which compares UTF-16 code units; where the keys
    are moreover ASCII text, this is the ascending order of their bytes. *)
Theorem paramsFilter_ascending (p : obj value) :
  NoDup (keys p) ->
  (forall k, In k (keys p) -> k <> "__proto__" /\ array_index k = None) ->
  keys (_paramsFilter p) = sort (filter (Spec.kept_key p) (keys p))
  /\ StronglySorted le (keys (_paramsFilter p))
  /\ ((forall k, In k (keys p) -> ascii_text k = true) ->
      StronglySorted (fun x y => (x <=? y)%string = true)
        (keys (_paramsFilter p))).
Proof.
  intros ND H.
  destruct (CloudClientProps.paramsFilter_sorted p ND H) as [E S].
  split; [exact E|]. split; [exact S|].
  intros A. apply (StronglySorted_impl_in le); [|exact S].
  assert (K : forall x, In x (keys (_paramsFilter p)) -> ascii_text x = true).
  { intros x I. rewrite E in I. apply (proj1 (sort_In _ _)) in I.
    apply filter_In in I as [I _]. now apply A. }
  intros x y Ix Iy L. unfold le in L.
  now rewrite <- (leb_ascii x y (K x Ix) (K y Iy)).
Qed.

(** X2 at five ASCII keys; and the order of code units at the keys [U+FF5E]
    and [U+1F600], the second of which is a pair of surrogates and sorts
    first although its bytes are greater. *)
Lemma paramsFilter_ascending_witness :
  let p := [ ("query", JStr "x"); ("Version", JStr "v2"); ("empty", JStr "");
             ("B", JNum 0); ("Signature", JStr "old") ] in
  let u_ff5e := String (ascii_of_N 239) (String (ascii_of_N 189)
                  (String (ascii_of_N 158) "")) in
  let u_1f600 := String (ascii_of_N 240) (String (ascii_of_N 159)
                   (String (ascii_of_N 152) (String (ascii_of_N 128) ""))) in
  let wide := [ (u_ff5e, JStr "a"); (u_1f600, JStr "b") ] in
  keys (_paramsFilter p) = ["B"; "Version"; "query"]
  /\ StronglySorted le (keys (_paramsFilter p))
  /\ StronglySorted (fun x y => (x <=? y)%string = true) (keys (_paramsFilter p))
  /\ keys (_paramsFilter wide) = [u_1f600; u_ff5e]
  /\ StronglySorted le (keys (_paramsFilter wide))
  /\ (u_1f600 <=? u_ff5e)%string = false.
Proof.
  intros p u_ff5e u_1f600 wide.
  destruct (paramsFilter_ascending p) as [E [S B]].
  - repeat constructor; simpl; intuition discriminate.
  - intros k I. simpl in I.
    decompose [or] I; subst; try contradiction; split;
      solve [discriminate | reflexivity].
  - destruct (paramsFilter_ascending wide) as [E' [S' _]].
    + repeat constructor; simpl; intuition discriminate.
    + intros k I. simpl in I.
      decompose [or] I; subst; try contradiction; split;
        solve [discriminate | reflexivity].
    + split; [rewrite E; reflexivity|]. split; [exact S|].
      split; [apply B; intros k I; simpl in I;
              decompose [or] I; subst; try contradiction; reflexivity|].
      split; [rewrite E'; reflexivity|]. split; [exact S'|]. reflexivity.
Defined.

(** *** [CloudClient] *)

Lemma strip_trailing_none (c : ascii) (h : string) :
  (forall s, h <> s ++ String c "") -> strip_trailing c h = h.
Proof.
  induction h as [|x h IH]; intros H; [reflexivity|].
  destruct h as [|y h].
  - simpl. destruct (Ascii.eqb_spec x c) as [->|N]; [|reflexivity].
    exfalso. now apply (H "").
  - change (String x (strip_trailing c (String y h)) = String x (String y h)).
    f_equal. apply IH. intros s E. apply (H (String x s)). simpl. now rewrite E.
Qed.

Lemma strip_trailing_one (c : ascii) (h : string) :
  strip_trailing c (h ++ String c "") = h.
Proof.
  rewrite CloudSearchProps.strip_trailing_app by discriminate.
  simpl. rewrite Ascii.eqb_refl. apply append_nil_r.
Qed.

(** X8.  The constructor removes one trailing [/] from the host, and only
    one, and stores the result as the base URI too, whatever base URI the
    caller passed; a host that does not end in [/] is stored as given. *)
Theorem CloudClient_host (u : user_opts) :
  baseURI (CloudClient u) = host (CloudClient u)
  /\ (forall h, u_host u = Some (h ++ "/") -> host (CloudClient u) = h)
  /\ (forall h, u_host u = Some h -> (forall s, h <> s ++ "/") ->
                host (CloudClient u) = h)
  /\ (u_host u = None -> host (CloudClient u) = "http://opensearch.aliyuncs.com").
Proof.
  unfold CloudClient. cbn [host baseURI set_host set_baseURI extend].
  split; [reflexivity|]. split; [|split].
  - intros h ->. cbn [pick]. apply strip_trailing_one.
  - intros h -> H. cbn [pick]. now apply strip_trailing_none.
  - intros ->. reflexivity.
Qed.

(** *** Percent-encoding *)

Lemma fixup_app (a b : string) : Spec.fixup (a ++ b) = Spec.fixup a ++ Spec.fixup b.
Proof.
  induction a as [|x a IH]; [reflexivity|].
  cbn [append Spec.fixup]. now rewrite IH, append_assoc.
Qed.

Lemma encodeURIComponent_cons (c : ascii) (s : string) :
  Small2.encodeURIComponent (String c s)
  = Spec.encode_char c ++ Small2.encodeURIComponent s.
Proof.
  unfold Spec.encode_char. cbn [Small2.encodeURIComponent].
  now destruct (Small2.unreserved c).
Qed.

Lemma all_chars_app (f : ascii -> bool) (a b : string) :
  Spec.all_chars f (a ++ b) = Spec.all_chars f a && Spec.all_chars f b.
Proof.
  induction a as [|x a IH]; [reflexivity|].
  simpl. now rewrite IH, andb_assoc.
Qed.

Lemma encoded_char_safe (c : ascii) :
  Spec.all_chars Spec.url_safe (Spec.fixup (Spec.encode_char c)) = true.
Proof.
  destruct c as [[] [] [] [] [] [] [] []]; reflexivity.
Qed.

Lemma encoded_char_decodes (c : ascii) (rest : string) :
  Spec.percent_decode (Spec.fixup (Spec.encode_char c) ++ rest)
  = match Spec.percent_decode rest with
    | Some d => Some (String c d)
    | None => None
    end.
Proof.
  destruct c as [[] [] [] [] [] [] [] []]; reflexivity.
Qed.

(** X9.  Where [s2.parseString] percent-encodes a string the standard way,
    the result of [_percentEncode] on a string consists of letters, digits
    and [- _ . ~ %] only. *)
Theorem percentEncode_safe_alphabet (parseString : Small2.parseString_t) :
  (forall s, parseString (Small2.OfString s) true None None
             = Small2.encodeURIComponent s) ->
  forall s,
    Spec.all_chars Spec.url_safe (_percentEncode parseString (Small2.OfString s))
    = true.
Proof.
  intros Std s. rewrite CloudClientProps.percentEncode_fixup.
  unfold Spec.percent_encode. rewrite Std.
  induction s as [|c s IH]; [reflexivity|].
  rewrite encodeURIComponent_cons, fixup_app, all_chars_app, IH.
  now rewrite encoded_char_safe.
Qed.

Lemma percentEncode_safe_alphabet_witness :
  Spec.all_chars Spec.url_safe
    (_percentEncode Small2.parseString (Small2.OfString "a*b!c'd(e)f /&=~%"))
  = true.
Proof.
  apply (percentEncode_safe_alphabet Small2.parseString); reflexivity.
Defined.

(** X10.  Where [s2.parseString] percent-encodes a string the standard way,
    reading the [%XX] groups of the result of [_percentEncode] back as bytes
    gives the string that was encoded: the encoding loses nothing. *)
Theorem percentEncode_decodes (parseString : Small2.parseString_t) :
  (forall s, parseString (Small2.OfString s) true None None
             = Small2.encodeURIComponent s) ->
  forall s,
    Spec.percent_decode (_percentEncode parseString (Small2.OfString s))
    = Some s.
Proof.
  intros Std s. rewrite CloudClientProps.percentEncode_fixup.
  unfold Spec.percent_encode. rewrite Std.
  induction s as [|c s IH]; [reflexivity|].
  rewrite encodeURIComponent_cons, fixup_app, encoded_char_decodes.
  now rewrite IH.
Qed.

Lemma percentEncode_decodes_witness :
  Spec.percent_decode
    (_percentEncode Small2.parseString (Small2.OfString "a*b!c'd(e)f /&=~%"))
  = Some "a*b!c'd(e)f /&=~%".
Proof.
  apply (percentEncode_decodes Small2.parseString); reflexivity.
Defined.

(** *** [_nonceAliyun] *)

Lemma to_int_not_nil (z : Z) :
  Z.to_int z <> Decimal.Pos Decimal.Nil /\ Z.to_int z <> Decimal.Neg Decimal.Nil.
Proof.
  split; intros E; pose proof (f_equal Z.of_int E) as F;
    rewrite DecimalZ.of_to in F; subst z; vm_compute in E; discriminate.
Qed.

Lemma Z_to_string_inj (a b : Z) : Z_to_string a = Z_to_string b -> a = b.
Proof.
  unfold Z_to_string. intros E.
  apply (f_equal NilZero.int_of_string) in E.
  destruct (to_int_not_nil a) as [A1 A2]. destruct (to_int_not_nil b) as [B1 B2].
  rewrite !NilZero.isi in E by assumption.
  injection E as E. now apply DecimalZ.to_int_inj.
Qed.

Lemma four_digits (r : Z) :
  (1000 <= r <= 9999)%Z -> String.length (Z_to_string r) = 4.
Proof.
  intros H.
  assert (A : forallb (fun n => Nat.eqb (String.length
                         (Z_to_string (1000 + Z.of_nat n))) 4)
                (seq 0 (Z.to_nat 9000)) = true) by (vm_compute; reflexivity).
  rewrite forallb_forall in A.
  specialize (A (Z.to_nat (r - 1000))).
  replace (1000 + Z.of_nat (Z.to_nat (r - 1000)))%Z with r in A by lia.
  apply Nat.eqb_eq, A, in_seq. lia.
Qed.

Lemma length_append (a b : string) :
  String.length (a ++ b) = String.length a + String.length b.
Proof. induction a as [|x a IH]; simpl; [reflexivity | now rewrite IH]. Qed.

Lemma append_inj_suffix (a : string) : forall a' b b',
  String.length b = String.length b' -> a ++ b = a' ++ b' -> a = a' /\ b = b'.
Proof.
  induction a as [|x a IH]; intros [|x' a'] b b' L E; simpl in E.
  - now split.
  - subst b. simpl in L. rewrite length_append in L. lia.
  - subst b'. simpl in L. rewrite length_append in L. lia.
  - injection E as -> E. destruct (IH a' b b' L E) as [-> ->]. now split.
Qed.

(** X24.  The nonce determines the clock value and the random part it was
    made of, the random part having four digits (as
    [parseInt(Math.random() * 8999 + 1000)] has): two calls get the same
    nonce only in the same millisecond with the same random part. *)
Theorem nonceAliyun_injective (e e' : env) :
  (1000 <= random_part e <= 9999)%Z ->
  (1000 <= random_part e' <= 9999)%Z ->
  _nonceAliyun e = _nonceAliyun e' ->
  now e = now e' /\ random_part e = random_part e'.
Proof.
  intros R R' E. unfold _nonceAliyun in E. cbn [append] in E.
  apply append_inj_suffix in E as [E1 E2].
  - split; now apply Z_to_string_inj.
  - now rewrite !four_digits.
Qed.

Lemma nonceAliyun_injective_witness :
  let e := mk_env 1500000000000 1234 "2017-07-14T02:40:00Z" in
  let e' := mk_env 1500000000000 1234 "2017-07-14T02:40:01Z" in
  _nonceAliyun e = "15000000000001234"
  /\ now e = now e' /\ random_part e = random_part e'.
Proof.
  intros e e'. split; [reflexivity|].
  apply (nonceAliyun_injective e e'); [simpl; lia | simpl; lia | reflexivity].
Defined.

End TransportExtra.

(** ** Further properties of the query builder *)

Module BuilderExtra.
Import JS Facts CloudSearch.

(** *** Writing, overwriting and deleting properties *)

Section ObjectFacts.
Context {V : Type}.
Implicit Types (o : obj V) (k : string) (v : V).

Lemma replace_replace o k v1 v2 :
  replace k v2 (replace k v1 o) = replace k v2 o.
Proof.
  induction o as [|[k0 v0] o IH]; [reflexivity|].
  simpl. destruct (String.eqb_spec k0 k) as [->|N]; simpl.
  - now rewrite String.eqb_refl.
  - apply String.eqb_neq in N. now rewrite N, IH.
Qed.

Lemma replace_insert_index o n k v1 v2 :
  ~ In k (keys o) ->
  replace k v2 (insert_index n k v1 o) = insert_index n k v2 o.
Proof.
  induction o as [|[k0 v0] o IH]; simpl; intros N.
  - now rewrite String.eqb_refl.
  - assert (N0 : k0 <> k) by tauto.
    destruct (array_index k0) as [n0|]; [destruct (n0 <? n)%N|]; simpl;
      try now rewrite String.eqb_refl.
    apply String.eqb_neq in N0. rewrite N0. rewrite IH; tauto.
Qed.

Lemma has_set o k v : k <> "__proto__" -> has (set k v o) k = true.
Proof.
  intros P. unfold has. rewrite get_set by assumption.
  now rewrite String.eqb_refl.
Qed.

(** Writing a property twice is writing the later value once. *)
Lemma set_set o k v1 v2 : set k v2 (set k v1 o) = set k v2 o.
Proof.
  destruct (String.eqb_spec k "__proto__") as [->|P]; [reflexivity|].
  unfold set at 1. apply String.eqb_neq in P. rewrite P.
  rewrite has_set by now apply String.eqb_neq.
  unfold set. rewrite P. destruct (has o k) eqn:H.
  - apply replace_replace.
  - apply has_false in H. destruct (array_index k) as [n|].
    + now apply replace_insert_index.
    + apply (replace_app o [] k v2 v1 H).
Qed.

Lemma delete_absent o k : ~ In k (keys o) -> delete k o = o.
Proof.
  induction o as [|[k0 v0] o IH]; simpl; intros N; [reflexivity|].
  destruct (String.eqb_spec k0 k) as [->|N0]; [tauto|].
  rewrite IH; tauto.
Qed.

Lemma delete_insert_index o n k v :
  ~ In k (keys o) -> delete k (insert_index n k v o) = o.
Proof.
  induction o as [|[k0 v0] o IH]; simpl; intros N.
  - now rewrite String.eqb_refl.
  - assert (N0 : k0 <> k) by tauto. apply String.eqb_neq in N0.
    destruct (array_index k0) as [n0|]; [destruct (n0 <? n)%N|]; simpl;
      rewrite ?String.eqb_refl, N0;
      try (rewrite IH by tauto); try (rewrite delete_absent by tauto);
      reflexivity.
Qed.

(** Deleting a property right after creating it gives the object back. *)
Lemma delete_set_new o k v : ~ In k (keys o) -> delete k (set k v o) = o.
Proof.
  intros N. unfold set. destruct (k =? "__proto__"); [now apply delete_absent|].
  apply has_false in N as H. rewrite H. destruct (array_index k) as [n|].
  - now apply delete_insert_index.
  - rewrite TransportExtra.delete_app. simpl. rewrite String.eqb_refl.
    rewrite delete_absent by assumption. apply app_nil_r.
Qed.

Lemma Forall_replace (P : string * V -> Prop) o k v :
  Forall P o -> P (k, v) -> Forall P (replace k v o).
Proof.
  intros F Pk. induction F as [|[k0 v0] o P0 F IH]; simpl; [constructor|].
  destruct (String.eqb_spec k0 k) as [->|N]; constructor; assumption.
Qed.

Lemma Forall_insert_index (P : string * V -> Prop) o n k v :
  Forall P o -> P (k, v) -> Forall P (insert_index n k v o).
Proof.
  intros F Pk. induction F as [|[k0 v0] o P0 F IH]; simpl;
    [now repeat constructor|].
  destruct (array_index k0) as [n0|]; [destruct (n0 <? n)%N|];
    repeat constructor; assumption.
Qed.

Lemma Forall_set (P : string * V -> Prop) o k v :
  Forall P o -> P (k, v) -> Forall P (set k v o).
Proof.
  intros F Pk. unfold set. destruct (k =? "__proto__"); [exact F|].
  destruct (has o k); [now apply Forall_replace|].
  destruct (array_index k); [now apply Forall_insert_index|].
  apply Forall_app. split; [exact F | now repeat constructor].
Qed.
End ObjectFacts.

Lemma get_put_if k x target k' :
  k <> k' -> get (put_if k x target) k' = get target k'.
Proof.
  intros N. unfold put_if. destruct (truthy x); [|reflexivity].
  now apply get_set_other.
Qed.

Lemma get_put_number k x target k' :
  k <> k' -> get (put_number k x target) k' = get target k'.
Proof.
  intros N. unfold put_number. destruct (truthy x); [|reflexivity].
  now apply get_set_other.
Qed.

(** *** [addFilter] *)

Lemma addFilter_empty (op : string) (o : opts) : addFilter "" op o = o.
Proof.
  unfold addFilter. cbn [String.eqb negb]. now rewrite andb_false_r.
Qed.

Lemma addFilter_more (f op : string) (o : opts) :
  f <> "" -> filters o <> "" ->
  filters (addFilter f op o)
  = filters o ++ " " ++ str_or op "AND" ++ " " ++ f.
Proof.
  intros Nf No. unfold addFilter.
  apply String.eqb_neq in Nf, No. now rewrite Nf, No.
Qed.

Lemma append_nonempty (a b : string) : a <> "" -> a ++ b <> "".
Proof. destruct a; [tauto | discriminate]. Qed.

Lemma add_filters_more (more : list (string * string)) : forall o,
  filters o <> "" ->
  Forall (fun c => fst c <> "") more ->
  getFilter (Spec.add_filters more o) = Spec.filter_expr (filters o) more.
Proof.
  induction more as [|[f op] more IH]; intros o No F; [reflexivity|].
  inversion F as [|? ? Nf F']; subst. cbn [fst] in Nf.
  cbn [Spec.add_filters Spec.filter_expr fold_left fst snd].
  fold (Spec.add_filters more (addFilter f op o)).
  rewrite IH; try assumption.
  - now rewrite addFilter_more.
  - rewrite addFilter_more by assumption. now apply append_nonempty.
Qed.

(** X11.  On a builder without a filter, [addFilter] calls with filters
    that are not empty build [f1 OP2 f2 OP3 f3 ...], the operator of a call
    left out counting as [AND]: the operator of the first call is not used;
    a call with an empty filter changes nothing, whatever its operator. *)
Theorem addFilter_builds_expression
    (f op : string) (more : list (string * string)) (o : opts) :
  filters o = "" -> f <> "" ->
  Forall (fun c => fst c <> "") more ->
  getFilter (Spec.add_filters ((f, op) :: more) o) = Spec.filter_expr f more
  /\ forall op', addFilter "" op' (Spec.add_filters ((f, op) :: more) o)
                 = Spec.add_filters ((f, op) :: more) o.
Proof.
  intros E Nf F. split; [|intros; apply addFilter_empty].
  cbn [Spec.add_filters fold_left fst snd].
  fold (Spec.add_filters more (addFilter f op o)).
  assert (H : filters (addFilter f op o) = f).
  { unfold addFilter. rewrite E. apply String.eqb_neq in Nf.
    now rewrite Nf. }
  rewrite add_filters_more; [now rewrite H | | assumption].
  now rewrite H.
Qed.

Lemma addFilter_builds_expression_witness :
  getFilter
    (Spec.add_filters [("x=1", "OR"); ("y=2", "OR"); ("z>3", "")] default_opts)
  = "x=1 OR y=2 AND z>3".
Proof.
  destruct (addFilter_builds_expression "x=1" "OR" [("y=2", "OR"); ("z>3", "")]
              default_opts) as [H _].
  - reflexivity.
  - discriminate.
  - repeat constructor; discriminate.
  - exact H.
Defined.

(** *** [removeFetchField], [removeIndex], [removeSort] *)

Lemma indexOf_absent (x : string) (l : list string) :
  indexOf x l = (-1)%Z <-> ~ In x l.
Proof.
  induction l as [|y l IH]; simpl; [tauto|].
  destruct (String.eqb_spec y x) as [->|N].
  - split; [discriminate | intros H; exfalso; apply H; now left].
  - assert (B : (-1 <= indexOf x l)%Z).
    { clear. induction l as [|z l IH]; simpl; [lia|].
      destruct (z =? x); [lia|].
      destruct (Z.eqb_spec (indexOf x l) (-1)); lia. }
    destruct (Z.eqb_spec (indexOf x l) (-1)) as [E|E].
    + split; [intros _ [H|H]; [contradiction | now apply IH in H]
             | reflexivity].
    + split; [lia | intros H; exfalso; apply E, IH; tauto].
Qed.

Lemma splice_last (l : list string) : splice_one (-1) l = removelast l.
Proof.
  unfold splice_one. cbn [Z.ltb Z.compare].
  destruct l as [|x l]; [reflexivity|].
  replace (Z.to_nat (Z.max (Z.of_nat (List.length (x :: l)) + -1) 0))
    with (List.length l) by (cbn [List.length]; lia).
  rewrite skipn_all2 by (cbn [List.length]; lia).
  rewrite app_nil_r. rewrite removelast_firstn_len. reflexivity.
Qed.

Lemma In_removelast (x : string) (l : list string) :
  In x (removelast l) -> In x l.
Proof.
  induction l as [|y l IH]; [tauto|].
  destruct l as [|z l]; [simpl; tauto|].
  change (In x (y :: removelast (z :: l)) -> In x (y :: z :: l)).
  intros [->|H]; [now left | right; now apply IH].
Qed.

(** X12.  [removeFetchField] never removes the field it is given: when the
    field is among the fetch fields nothing changes, and when it is not, the
    last fetch field is removed instead. *)
Theorem removeFetchField_removes_last_when_absent (f : string) (o : opts) :
  (In f (fetches o) -> removeFetchField f o = o)
  /\ (~ In f (fetches o) ->
      getFetchFields (removeFetchField f o) = removelast (fetches o))
  /\ (In f (getFetchFields (removeFetchField f o)) <-> In f (fetches o)).
Proof.
  unfold removeFetchField, getFetchFields.
  destruct (Z.eqb_spec (indexOf f (fetches o)) (-1)) as [E|E].
  - pose proof (proj1 (indexOf_absent f (fetches o)) E) as N.
    rewrite E, splice_last. cbn [fetches with_fetches].
    split; [tauto|]. split; [reflexivity|].
    split; [apply In_removelast | tauto].
  - assert (I : In f (fetches o)).
    { destruct (in_dec string_dec f (fetches o)) as [I|N]; [exact I|].
      now apply indexOf_absent in N. }
    split; [reflexivity|]. split; [tauto | tauto].
Qed.

Lemma remove_first_split (x : string) (l1 l2 : list string) :
  ~ In x l1 -> remove_first x (l1 ++ x :: l2) = (l1 ++ l2)%list.
Proof.
  induction l1 as [|y l1 IH]; simpl; intros N.
  - now rewrite String.eqb_refl.
  - destruct (String.eqb_spec y x) as [->|_]; [tauto|].
    rewrite IH; tauto.
Qed.

Lemma remove_first_absent (x : string) (l : list string) :
  ~ In x l -> remove_first x l = l.
Proof.
  induction l as [|y l IH]; simpl; intros N; [reflexivity|].
  destruct (String.eqb_spec y x) as [->|_]; [tauto|].
  rewrite IH; tauto.
Qed.

(** X13.  [removeIndex] removes the first occurrence of a name and only
    that one, and nothing when the name is not stored; it undoes an
    [addIndex] of a name that was not stored, and after two [addIndex] of
    the same name one occurrence is left. *)
Theorem removeIndex_removes_first (s : string) (o : opts) :
  (forall l1 l2, indexes o = (l1 ++ s :: l2)%list -> ~ In s l1 ->
     getSearchIndexes (removeIndex s o) = (l1 ++ l2)%list)
  /\ (~ In s (indexes o) -> getSearchIndexes (removeIndex s o) = indexes o)
  /\ (~ In s (indexes o) ->
      (o' <- addIndex (One s) o ;; Normal (getSearchIndexes (removeIndex s o')))
      = Normal (indexes o))
  /\ (~ In s (indexes o) ->
      (o' <- addIndex (One s) o ;; o' <- addIndex (One s) o' ;;
       Normal (getSearchIndexes (removeIndex s o')))
      = Normal (indexes o ++ [s])%list).
Proof.
  unfold removeIndex, getSearchIndexes. cbn [indexes with_indexes].
  split; [|split; [|split]].
  - intros l1 l2 -> N. now apply remove_first_split.
  - intros N. now apply remove_first_absent.
  - intros N. cbn [addIndex bind indexes with_indexes].
    rewrite remove_first_split by assumption. now rewrite app_nil_r.
  - intros N. cbn [addIndex bind indexes with_indexes].
    rewrite <- app_assoc. cbn [app].
    now rewrite remove_first_split by assumption.
Qed.

Lemma with_sort_same (o : opts) : with_sort (sort o) o = o.
Proof. now destruct o. Qed.

(** X14.  [removeSort] undoes the [addSort] of a field that had no rule,
    whatever the field name is; after [removeSort(f)] there is no rule for
    [f] and the other rules are as they were, in their order. *)
Theorem removeSort_undoes_addSort (f d : string) (o : opts) :
  (~ In f (keys (sort o)) -> removeSort f (snd (addSort f d o)) = o)
  /\ get (getSort (removeSort f o)) f = None
  /\ (forall g, g <> f -> get (getSort (removeSort f o)) g = get (getSort o) g)
  /\ keys (getSort (removeSort f o))
     = filter (fun g => negb (g =? f)) (keys (getSort o)).
Proof.
  unfold removeSort, getSort. cbn [sort with_sort].
  split; [|split; [|split]].
  - intros N. unfold addSort. destruct (f =? ""); cbn [snd sort with_sort].
    + rewrite delete_absent by assumption. apply with_sort_same.
    + rewrite delete_set_new by assumption.
      destruct o; reflexivity.
  - rewrite get_delete. now rewrite String.eqb_refl.
  - intros g N. rewrite get_delete.
    destruct (String.eqb_spec f g); [congruence | reflexivity].
  - apply keys_delete.
Qed.
(** *** [addSummary], [addDistinct], [addAggregate] *)

(** X21.  [addSummary] and [addDistinct] keep one rule per key: a second
    call for the same key leaves what the second call alone would have
    left, in the place the first call gave the rule; a call with an empty
    key returns [false] and changes nothing. *)
Theorem addSummary_addDistinct_overwrite (k : string) (o : opts) :
  (forall len1 el1 ell1 sn1 pre1 post1 len2 el2 ell2 sn2 pre2 post2,
     k <> "" ->
     snd (addSummary k len2 el2 ell2 sn2 pre2 post2
            (snd (addSummary k len1 el1 ell1 sn1 pre1 post1 o)))
     = snd (addSummary k len2 el2 ell2 sn2 pre2 post2 o))
  /\ (forall c1 t1 r1 f1 u1 m1 g1 c2 t2 r2 f2 u2 m2 g2,
        k <> "" ->
        snd (addDistinct k c2 t2 r2 f2 u2 m2 g2
               (snd (addDistinct k c1 t1 r1 f1 u1 m1 g1 o)))
        = snd (addDistinct k c2 t2 r2 f2 u2 m2 g2 o))
  /\ (forall len el ell sn pre post,
        addSummary "" len el ell sn pre post o = (JBool false, o))
  /\ (forall c t r f u m g,
        addDistinct "" c t r f u m g o = (JBool false, o)).
Proof.
  split; [|split; [|split]]; try reflexivity.
  - intros. unfold addSummary. apply String.eqb_neq in H. rewrite H.
    cbn [snd summary with_summary]. rewrite set_set. reflexivity.
  - intros. unfold addDistinct. apply String.eqb_neq in H. rewrite H.
    cbn [snd distinct with_distinct]. rewrite set_set. reflexivity.
Qed.

Lemma summary_rule_names field len el ell sn pre post o rule k :
  Spec.rules_name_their_key o ->
  get (summary (snd (addSummary field len el ell sn pre post o))) k = Some rule ->
  get rule "summary_field" = Some (JStr k).
Proof.
  intros [Hs _]. unfold addSummary.
  destruct (String.eqb_spec field "") as [->|N]; cbn [snd summary with_summary];
    [apply Hs|].
  destruct (String.eqb_spec field "__proto__") as [->|P]; [apply Hs|].
  rewrite get_set by assumption.
  destruct (String.eqb_spec field k) as [->|Nk]; [|apply Hs].
  intros [= <-].
  rewrite !get_put_if, !get_put_number, !get_put_if, get_put_number
    by discriminate.
  now rewrite get_set by discriminate.
Qed.

Lemma distinct_rule_names key c t r f u m g o rule k :
  Spec.rules_name_their_key o ->
  get (distinct (snd (addDistinct key c t r f u m g o))) k = Some rule ->
  get rule "dist_key" = Some (JStr k).
Proof.
  intros [_ Hd]. unfold addDistinct.
  destruct (String.eqb_spec key "") as [->|N]; cbn [snd distinct with_distinct];
    [apply Hd|].
  destruct (String.eqb_spec key "__proto__") as [->|P]; [apply Hd|].
  rewrite get_set by assumption.
  destruct (String.eqb_spec key k) as [->|Nk]; [|apply Hd].
  intros [= <-].
  rewrite get_put_if, get_put_number, !get_put_if, !get_put_number
    by discriminate.
  now rewrite get_set by discriminate.
Qed.

(** X22.  [addSummary] and [addDistinct] keep the invariant that every
    stored rule names, as its [summary_field] or [dist_key], the key it is
    stored under. *)
Theorem rules_name_their_key_kept (o : opts) :
  Spec.rules_name_their_key o ->
  (forall field len el ell sn pre post,
     Spec.rules_name_their_key (snd (addSummary field len el ell sn pre post o)))
  /\ (forall key c t r f u m g,
        Spec.rules_name_their_key (snd (addDistinct key c t r f u m g o))).
Proof.
  intros I. split.
  - intros. split.
    + intros k rule. now apply summary_rule_names.
    + unfold addSummary. destruct (field =? ""); apply I.
  - intros. split.
    + unfold addDistinct. destruct (key =? ""); apply I.
    + intros k rule. now apply distinct_rule_names.
Qed.

Lemma rules_name_their_key_kept_witness :
  Spec.rules_name_their_key
    (snd (addDistinct "user_id" (JNum 1) (JNum 2) (JStr "false") "" JUndefined
            JUndefined JUndefined
            (snd (addSummary "title" (JNum 50) "em" "..." (JNum 1) "" ""
                    default_opts)))).
Proof.
  apply (rules_name_their_key_kept
           (snd (addSummary "title" (JNum 50) "em" "..." (JNum 1) "" ""
                   default_opts))).
  apply (rules_name_their_key_kept default_opts).
  split; intros k rule; discriminate.
Defined.

(** X20.  [addAggregate] accumulates: for a group key and a function that
    are not empty, and a group key that is not the name of a member of
    [Object.prototype], the call adds one rule, naming the group key and the
    function, after the rules stored for the group key and leaves the rules
    of every other group key alone.  With an empty group key or function it
    returns [false] and changes nothing; with a group key inherited from
    [Object.prototype] that has no rules it throws. *)
Theorem addAggregate_accumulates
    (g fn : string) (range maxGroup aggFilter threshold step : value) (o : opts) :
  (g <> "" -> fn <> "" -> inherited g = false ->
   exists rule o',
     addAggregate g fn range maxGroup aggFilter threshold step o
     = Normal (JUndefined, o')
     /\ Spec.stored_aggregates o' g = (Spec.stored_aggregates o g ++ [rule])%list
     /\ get rule "group_key" = Some (JStr g)
     /\ get rule "agg_fun" = Some (JStr fn)
     /\ forall g', g' <> g ->
          Spec.stored_aggregates o' g' = Spec.stored_aggregates o g')
  /\ (g = "" \/ fn = "" ->
      addAggregate g fn range maxGroup aggFilter threshold step o
      = Normal (JBool false, o))
  /\ (g <> "" -> fn <> "" -> inherited g = true ->
      get (aggregate o) g = None ->
      exists msg,
        addAggregate g fn range maxGroup aggFilter threshold step o
        = ThrowTypeError msg).
Proof.
  split; [|split].
  - intros Ng Nf I.
    assert (P : g <> "__proto__") by (intros ->; discriminate).
    unfold addAggregate. apply String.eqb_neq in Ng, Nf. rewrite Ng, Nf.
    cbn [orb]. unfold Spec.stored_aggregates.
    destruct (get (aggregate o) g) as [l|] eqn:G; [|rewrite I];
      do 2 eexists; (split; [reflexivity|]); cbn [aggregate with_aggregate].
    + rewrite get_set, String.eqb_refl by assumption.
      split; [reflexivity|].
      rewrite !get_put_if by discriminate.
      split; [now rewrite get_set_other, get_set by discriminate|].
      split; [now rewrite get_set by discriminate|].
      intros g' N. now rewrite get_set_other by congruence.
    + rewrite get_set, String.eqb_refl by assumption.
      split; [reflexivity|].
      rewrite !get_put_if by discriminate.
      split; [now rewrite get_set_other, get_set by discriminate|].
      split; [now rewrite get_set by discriminate|].
      intros g' N. now rewrite get_set_other by congruence.
  - intros [->| ->]; unfold addAggregate; cbn [String.eqb orb];
      [reflexivity | now rewrite orb_true_r].
  - intros Ng Nf I G. unfold addAggregate.
    apply String.eqb_neq in Ng, Nf. rewrite Ng, Nf, G, I. now eexists.
Qed.

(** *** Disabled functions *)

Lemma add_disabled_empty_lists (calls : list (string * names)) : forall o,
  Forall (fun kv => snd kv = []) (functions o) ->
  Forall (fun kv => snd kv = []) (functions (Spec.add_disabled calls o)).
Proof.
  induction calls as [|[f d] calls IH]; intros o F; [exact F|].
  cbn [Spec.add_disabled fold_left fst snd].
  fold (Spec.add_disabled calls (Spec.left_by (addDisabledFunction f d o) o)).
  apply IH. unfold addDisabledFunction.
  destruct (names_truthy d); [|exact F]. cbn [negb].
  destruct (get (functions o) f) as [l|] eqn:G.
  - cbn [Spec.left_by functions with_functions].
    apply Forall_set; [exact F|]. cbn [snd].
    apply get_In in G. rewrite Forall_forall in F. exact (F _ G).
  - destruct (inherited f); [exact F|].
    cbn [Spec.left_by functions with_functions].
    now apply Forall_set.
Qed.

Lemma disabled_string_bare (fs : obj (list string)) :
  Forall (fun kv => snd kv = []) fs ->
  map (fun kv => fst kv ++ ":" ++ join "," (snd kv)) fs
  = map (fun kv => fst kv ++ ":") fs.
Proof.
  induction 1 as [|[k l] fs E F IH]; [reflexivity|].
  cbn [map fst snd] in *. subst l. now rewrite IH.
Qed.

(** X19.  On a builder without disabled functions, whatever is passed to
    [addDisabledFunction] never reaches the request: after any calls, the
    [disable] string is the stored function names, each followed by [:] and
    no value. *)
Theorem disabled_string_has_no_values
    (calls : list (string * names)) (o : opts) :
  functions o = [] ->
  getDisabledFunctionString (Spec.add_disabled calls o)
  = join ";" (map (fun kv => fst kv ++ ":")
                (getDisabledFunction (Spec.add_disabled calls o))).
Proof.
  intros E. unfold getDisabledFunctionString, getDisabledFunction.
  rewrite disabled_string_bare; [reflexivity|].
  apply add_disabled_empty_lists. rewrite E. constructor.
Qed.

Lemma disabled_string_has_no_values_witness :
  getDisabledFunctionString
    (Spec.add_disabled
       [("qp", One "spell_check"); ("qp", Many ["stop_word"; "synonym"]);
        ("summary", One "x")] default_opts)
  = "qp:;summary:".
Proof.
  rewrite (disabled_string_has_no_values
             [("qp", One "spell_check"); ("qp", Many ["stop_word"; "synonym"]);
              ("summary", One "x")] default_opts); reflexivity.
Defined.

(** *** [extract], [callQuery], [search], [scroll], [queryIndex] *)

Section Calls.
Variable parseString : Small2.parseString_t.
Variable goneEmpty : Small2.goneEmpty_t.
Variable hmac : string -> string -> string -> string.
Variable toUpperCase : string -> string.

(** X15.  A [fetch_field] option makes [search] and [scroll] throw: unless
    it is empty, [extract] passes it to [addFetchFields], which throws, and
    no request is built. *)
Theorem fetch_field_option_throws (q : call_opts) :
  names_truthy (q_fetch_field q) = true ->
  q_fetch_field q <> Many [] ->
  exists msg,
    (forall type o, extract (Some q) type o = ThrowTypeError msg)
    /\ (forall e b,
          search parseString goneEmpty hmac toUpperCase e q b
          = ThrowTypeError msg)
    /\ (forall e b,
          scroll_ parseString goneEmpty hmac toUpperCase e (Some q) b
          = ThrowTypeError msg).
Proof.
  intros T N.
  assert (E : exists msg, forall type o,
            extract (Some q) type o = ThrowTypeError msg).
  { destruct (q_fetch_field q) as [s|[|x l]] eqn:Hq.
    - eexists. intros type o. unfold extract. rewrite Hq, T. reflexivity.
    - contradiction.
    - eexists. intros type o. unfold extract. rewrite Hq. reflexivity. }
  destruct E as [msg E]. exists msg. split; [exact E|].
  split; intros e b; [unfold search | unfold scroll_]; now rewrite E.
Qed.

Lemma get_put_joined k sep x target target' k' :
  put_joined goneEmpty k sep x target = Normal target' ->
  k <> k' -> get target' k' = get target k'.
Proof.
  clear hmac toUpperCase parseString.
  unfold put_joined. intros E N.
  destruct (truthy (goneEmpty x)).
  - destruct (array_join sep (goneEmpty x)); [|discriminate].
    injection E as <-. now apply get_set_other.
  - now injection E as <-.
Qed.

(** When [callQuery] builds its param map, a key that is neither a mode key
    nor [fetch_fields] is read as after the custom parameters were
    merged. *)
Lemma query_params_after_custom (type : string) (o : opts) (params : obj value) :
  query_params parseString goneEmpty type o = Normal params ->
  forall k, ~ In k (Spec.mode_keys (str_or type "search")) ->
    get params k
    = get (fold_left (fun p kv => set (fst kv) (JStr (snd kv)) p)
             (getCustomParam o)
             (set "Format" (JStr (getFormat o))
                (set "index_name" (JStr (join ";" (getSearchIndexes o)))
                   (set "query"
                      (JStr (replace_all "&" "&&"
                               (parseString
                                  (Small2.OfObject
                                     (haquery parseString goneEmpty
                                        (str_or type "search") o))
                                  false None None))) [])))) k.
Proof.
  clear hmac toUpperCase.
  unfold query_params, Spec.mode_keys.
  match goal with
  | |- context [put_joined goneEmpty ?k ?sep ?x ?t] =>
      pose proof (get_put_joined k sep x t) as G1;
      destruct (put_joined goneEmpty k sep x t) as [p1|msg];
      [|discriminate]
  end.
  specialize (G1 p1). cbn [bind].
  destruct (str_or type "search" =? "search").
  - match goal with
    | |- context [put_joined goneEmpty ?k ?sep ?x ?t] =>
        pose proof (get_put_joined k sep x t) as G2;
        destruct (put_joined goneEmpty k sep x t) as [p2|msg];
        [|discriminate]
    end.
    specialize (G2 p2). cbn [bind]. intros E k N. injection E as <-.
    rewrite ScrollProps.get_put by (intros <-; apply N; simpl; tauto).
    rewrite (G2 k eq_refl) by (intros <-; apply N; simpl; tauto).
    rewrite !ScrollProps.get_put by (intros <-; apply N; simpl; tauto).
    apply (G1 k eq_refl). intros <-. apply N. simpl. tauto.
  - destruct (str_or type "search" =? "scroll").
    + intros E k N. injection E as <-.
      rewrite get_set_other by (intros <-; apply N; simpl; tauto).
      rewrite !ScrollProps.get_put by (intros <-; apply N; simpl; tauto).
      apply (G1 k eq_refl). intros <-. apply N. simpl. tauto.
    + intros E k N. injection E as <-.
      apply (G1 k eq_refl). intros <-. apply N. simpl. tauto.
Qed.

Lemma get_merged_custom (custom : obj string) : forall (base : obj value) k v,
  NoDup (keys custom) -> k <> "__proto__" -> get custom k = Some v ->
  get (fold_left (fun p kv => set (fst kv) (JStr (snd kv)) p) custom base) k
  = Some (JStr v).
Proof.
  induction custom as [|[k0 v0] custom IH]; intros base k v ND P G;
    [discriminate|].
  inversion ND as [|? ? N0 ND']; subst.
  cbn [fold_left fst snd]. simpl in G.
  destruct (String.eqb_spec k0 k) as [->|N].
  - injection G as ->. rewrite ScrollProps.get_custom by now apply has_false.
    rewrite get_set by assumption. now rewrite String.eqb_refl.
  - now apply IH.
Qed.

(** X17.  Whenever [callQuery] builds its param map, every custom parameter
    is in it with the value it was given, unless its name is one of the keys
    the mode writes after them ([fetch_fields]; [formula_name],
    [first_formula_name], [summary], [qp], [disable] for a search; [scroll],
    [scroll_id], [search_type] for a scroll): in particular a custom
    parameter named [query], [index_name] or [Format] replaces what the
    builder computed. *)
Theorem custom_params_reach_request
    (type : string) (o : opts) (params : obj value) :
  NoDup (keys (getCustomParam o)) ->
  query_params parseString goneEmpty type o = Normal params ->
  forall k v,
    get (getCustomParam o) k = Some v -> k <> "__proto__" ->
    ~ In k (Spec.mode_keys (str_or type "search")) ->
    get params k = Some (JStr v).
Proof.
  clear hmac toUpperCase.
  intros ND E k v Gk P N.
  rewrite (query_params_after_custom type o params E) by assumption.
  now apply get_merged_custom.
Qed.

Hypothesis contract : Spec.goneEmpty_contract goneEmpty.


Hypothesis drops_empty : Spec.goneEmpty_drops_empty goneEmpty.

Lemma put_string k s target :
  put goneEmpty k (JStr s) target
  = if s =? "" then target else set k (JStr s) target.
Proof.
  destruct (String.eqb_spec s "") as [->|N].
  - unfold put. unfold Spec.goneEmpty_drops_empty in drops_empty.
    now rewrite drops_empty.
  - now apply ScrollProps.put_nonempty.
Qed.

Lemma get_put_string k s target k' :
  k <> "__proto__" ->
  get (put goneEmpty k (JStr s) target) k'
  = if k =? k' then (if s =? "" then get target k' else Some (JStr s))
    else get target k'.
Proof.
  intros P. rewrite put_string.
  destruct (String.eqb_spec k k') as [<-|N].
  - destruct (s =? ""); [reflexivity|].
    rewrite get_set by assumption. now rewrite String.eqb_refl.
  - destruct (s =? ""); [reflexivity | now apply get_set_other].
Qed.

(** X18.  The clause map always has the [query] clause (the literal [''] when
    no query string is set) and the [config] clause; [filter] and [kvpairs]
    are present exactly when they are not empty, and so are, for a search,
    [sort], [distinct] and [aggregate], each with its serialized form. *)
Theorem haquery_clauses (type : string) (o : opts) :
  let h := haquery parseString goneEmpty type o in
  get h "query" = Some (JStr (str_or (getQuery o) "''"))
  /\ get h "config" = Some (JStr (clauseConfig o))
  /\ get h "filter" = Spec.opt_clause (getFilter o)
  /\ get h "kvpairs" = Spec.opt_clause (getPair o)
  /\ (type = "search" ->
      get h "sort" = Spec.opt_clause (getSortString o)
      /\ get h "distinct" = Spec.opt_clause (getDistinctString parseString o)
      /\ get h "aggregate" = Spec.opt_clause (getAggregateString parseString o)).
Proof.
  intros h. subst h. unfold haquery, Spec.opt_clause.
  destruct (String.eqb_spec type "search") as [->|N].
  - repeat split; try (intros _; repeat split);
      rewrite !get_put_string by discriminate;
      cbn [String.eqb Ascii.eqb Bool.eqb get set];
      rewrite ?append_nil_r; reflexivity.
  - repeat split; try contradiction;
      rewrite !get_put_string by discriminate;
      cbn [String.eqb Ascii.eqb Bool.eqb get set];
      rewrite ?append_nil_r; reflexivity.
Qed.

(** X23.  [queryIndex] and [queryError] leave the query state of the
    builder untouched and go through [callRequest] with [GET], which becomes
    the stored method of the client; the paths are [/index/<name>] and
    [/index/error/<name>], so [queryError(name)] is [queryIndex] of
    [error/<name>]. *)
Theorem queryIndex_keeps_state
    (e : CloudClient.env) (name : string) (params : option (obj value))
    (b : builder) :
  let out := queryIndex parseString hmac toUpperCase e name params b in
  _opts (fst (fst out)) = _opts b
  /\ client (fst (fst out)) = CloudClient.set_method "GET" (client b)
  /\ queryError parseString hmac toUpperCase e name params b
     = queryIndex parseString hmac toUpperCase e ("error/" ++ name) params b.
Proof.
  unfold queryIndex, queryError.
  pose proof (CloudClientProps.callRequest_opts parseString hmac toUpperCase e
                ("/index/" ++ name) params "GET" (client b)) as K.
  destruct (CloudClient.callRequest parseString hmac toUpperCase e
              ("/index/" ++ name) params "GET" (client b)) as [[c' p'] r].
  cbn [fst snd _opts client] in *. repeat split. exact K.
Qed.
End Calls.

Lemma goneEmpty_model_drops_empty : Spec.goneEmpty_drops_empty Small2.goneEmpty.
Proof. reflexivity. Qed.

Lemma fetch_field_option_throws_witness :
  let hmac := fun alg key data => alg ++ ":" ++ key ++ ":" ++ data in
  let e := CloudClient.mk_env 1500000000000 1234 "2017-07-14T02:40:00Z" in
  let q := mk_call_opts "default:'x'" (One "title") "" JUndefined JUndefined ""
             "" JUndefined None None None "" None (One "") JUndefined (One "")
             JUndefined JUndefined in
  exists msg,
    search Small2.parseString Small2.goneEmpty hmac JS.toUpperCase e q
      (CloudSearch (CloudClient.CloudClient CloudClient.no_opts))
    = ThrowTypeError msg.
Proof.
  intros hm e q.
  destruct (fetch_field_option_throws Small2.parseString Small2.goneEmpty hm
              JS.toUpperCase q) as [msg [_ [H _]]].
  - reflexivity.
  - discriminate.
  - exists msg. apply H.
Defined.

Lemma custom_params_reach_request_witness :
  let o := addCustomParam "index_name" "other"
             (addCustomParam "formula_name" "x"
                (addCustomParam "trace" "1" default_opts)) in
  exists params,
    query_params Small2.parseString Small2.goneEmpty "scroll" o = Normal params
    /\ get params "index_name" = Some (JStr "other")
    /\ get params "formula_name" = Some (JStr "x")
    /\ get params "trace" = Some (JStr "1").
Proof.
  intros o.
  assert (ND : NoDup (keys (getCustomParam o)))
    by (repeat constructor; simpl; intuition discriminate).
  destruct (query_params Small2.parseString Small2.goneEmpty "scroll" o)
    as [params|msg] eqn:E; [|vm_compute in E; discriminate].
  pose proof (custom_params_reach_request Small2.parseString Small2.goneEmpty
                "scroll" o params ND E) as G.
  exists params. split; [reflexivity|].
  repeat split; apply G; try reflexivity; try discriminate;
    simpl; intuition discriminate.
Defined.


Lemma haquery_clauses_witness :
  let o := snd (addSort "price" "+" (addFilter "x=1" "" default_opts)) in
  let h := haquery Small2.parseString Small2.goneEmpty "search" o in
  get h "query" = Some (JStr "''")
  /\ get h "filter" = Some (JStr "x=1")
  /\ get h "kvpairs" = None
  /\ get h "sort" = Some (JStr "+price")
  /\ get h "distinct" = None.
Proof.
  intros o h.
  destruct (haquery_clauses Small2.parseString Small2.goneEmpty
              ScrollProps.goneEmpty_model_contract goneEmpty_model_drops_empty
              "search" o) as [Q [_ [F [K S]]]].
  destruct (S eq_refl) as [S1 [S2 _]].
  repeat split; assumption.
Defined.

End BuilderExtra.
